(** * Randomised map iteration (unsafe/randmap.go)

    A shallow embedding of the map iterator that [randmap.go] copies from
    the Go runtime ([mapiterinit], [mapiternext], [mapaccessK] and their
    helpers), over a flat, read-only memory of typed cells, together with
    the properties of the traversal.

    Conventions.  Every Go integer is a [Z] with its wrap-around written
    out: [uintptr] is 64 bits wide (the model fixes [ptrSize = 8]), [uint8]
    is 8 bits wide.  An [unsafe.Pointer] is an address, a [Z], and [0] is
    [nil].  Reading an address that holds no cell of the expected kind is a
    [Fault]; the loops that follow overflow pointers take a fuel argument
    and report [OutOfFuel] when it runs out. *)

From Stdlib Require Import ZArith Lia List Permutation.
From stdpp Require Import base option list gmap.

Local Open Scope Z_scope.

(** ** Results of fallible code *)

Inductive res (A : Type) : Type :=
| Ok (a : A)
| Fault
| OutOfFuel.
Arguments Ok {A} a.
Arguments Fault {A}.
Arguments OutOfFuel {A}.

#[global] Instance res_ret : MRet res := fun _ a => Ok a.
#[global] Instance res_bind : MBind res := fun _ _ f r =>
  match r with
  | Ok a => f a
  | Fault => Fault
  | OutOfFuel => OutOfFuel
  end.

Definition of_option {A : Type} (o : option A) : res A :=
  match o with
  | Some a => Ok a
  | None => Fault
  end.

(** ** Machine arithmetic *)

Definition wrap64 (z : Z) : Z := z mod 2 ^ 64.
Definition wrap32 (z : Z) : Z := z mod 2 ^ 32.
Definition wrap8 (z : Z) : Z := z mod 2 ^ 8.

(** [x << s] on a [uintptr]; Go gives [0] once [s] reaches the width. *)
Definition shl64 (x s : Z) : Z := wrap64 (Z.shiftl x s).
(** [x >> s] on a [uintptr]. *)
Definition shr64 (x s : Z) : Z := Z.shiftr x s.

(** [func add(p unsafe.Pointer, x uintptr) unsafe.Pointer] *)
Definition add (p x : Z) : Z := wrap64 (p + x).

(** ** Constants *)

Definition bucketCntBits : Z := 3.
Definition bucketCnt : Z := Z.shiftl 1 bucketCntBits.
Definition dataOffset : Z := 8.
Definition empty : Z := 0.
Definition evacuatedEmpty : Z := 1.
Definition evacuatedX : Z := 2.
Definition evacuatedY : Z := 3.
Definition minTopHash : Z := 4.
Definition ptrSize : Z := 8.
Definition noCheck : Z := Z.shiftl 1 (8 * ptrSize) - 1.

(** ** Types *)

(** [hmap], without the [overflow] field that only keeps buckets alive. *)
Record hmap : Type := Hmap {
  count : Z;
  flags : Z;
  hmap_B : Z;
  hash0 : Z;
  hmap_buckets : Z;
  oldbuckets : Z;
  nevacuate : Z
}.

(** [maptype], with the [alg] of its key type ([t.key.alg]) inlined.  [K] is
    the type of key objects. *)
Record maptype (K : Type) : Type := Maptype {
  keysize : Z;
  indirectkey : bool;
  valuesize : Z;
  indirectvalue : bool;
  bucketsize : Z;
  reflexivekey : bool;
  needkeyupdate : bool;
  alg_hash : K -> Z -> Z;
  alg_equal : K -> K -> bool
}.
Arguments Maptype {K}.
Arguments keysize {K}.
Arguments indirectkey {K}.
Arguments valuesize {K}.
Arguments indirectvalue {K}.
Arguments bucketsize {K}.
Arguments reflexivekey {K}.
Arguments needkeyupdate {K}.
Arguments alg_hash {K}.
Arguments alg_equal {K}.

(** [hiter].  [it_t] is the pointer to the [maptype] ([None] is [nil]); [it_h] is the
    address of the map header. *)
Record hiter (K : Type) : Type := Hiter {
  key : Z;
  value : Z;
  it_t : option (maptype K);
  it_h : Z;
  buckets : Z;
  bptr : Z;
  overflow0 : Z;
  overflow1 : Z;
  startBucket : Z;
  offset : Z;
  wrapped : bool;
  B : Z;
  it_i : Z;
  bucket : Z;
  checkBucket : Z
}.
Arguments Hiter {K}.
Arguments key {K}.
Arguments value {K}.
Arguments it_t {K}.
Arguments it_h {K}.
Arguments buckets {K}.
Arguments bptr {K}.
Arguments overflow0 {K}.
Arguments overflow1 {K}.
Arguments startBucket {K}.
Arguments offset {K}.
Arguments wrapped {K}.
Arguments B {K}.
Arguments it_i {K}.
Arguments bucket {K}.
Arguments checkBucket {K}.

(** ** Memory

    Cells are typed: map headers, bytes (the [tophash] arrays), pointer
    words (overflow links, indirect keys and values) and key objects.  The
    iterator only reads. *)
Record mem (K : Type) : Type := Mem {
  m_hmap : gmap Z hmap;
  m_byte : gmap Z Z;
  m_ptr : gmap Z Z;
  m_key : gmap Z K
}.
Arguments Mem {K}.
Arguments m_hmap {K}.
Arguments m_byte {K}.
Arguments m_ptr {K}.
Arguments m_key {K}.

Section Model.

Context {K : Type}.

Definition load_hmap (m : mem K) (p : Z) : res hmap := of_option (m_hmap m !! p).
Definition load8 (m : mem K) (p : Z) : res Z := of_option (wrap8 <$> m_byte m !! p).
Definition load_ptr (m : mem K) (p : Z) : res Z := of_option (wrap64 <$> m_ptr m !! p).
Definition load_key (m : mem K) (p : Z) : res K := of_option (m_key m !! p).

(** [b.tophash[i]] *)
Definition tophash (m : mem K) (b i : Z) : res Z := load8 m (add b i).

(** [func evacuated(b *bmap) bool] *)
Definition evacuated (m : mem K) (b : Z) : res bool :=
  h ← tophash m b 0;
  Ok ((empty <? h) && (h <? minTopHash)).

(** [func (b *bmap) overflow(t *maptype) *bmap] *)
Definition overflow (m : mem K) (t : maptype K) (b : Z) : res Z :=
  load_ptr m (add b (bucketsize t - ptrSize)).

(** Address of key slot [i] of bucket [b], and of its value slot. *)
Definition keyslot (t : maptype K) (b i : Z) : Z :=
  add b (dataOffset + i * keysize t).
Definition valueslot (t : maptype K) (b i : Z) : Z :=
  add b (dataOffset + bucketCnt * keysize t + i * valuesize t).

(** The load through the slot that the code does when [t.indirectkey]
    (or [t.indirectvalue]) is set. *)
Definition deref_if (m : mem K) (ind : bool) (p : Z) : res Z :=
  if ind then load_ptr m p else Ok p.

(** [alg.hash(k, uintptr(h.hash0))], a [uintptr].  The model takes the hash
    to be a function of the key object and the seed; [mapiternext] hashes
    only keys that are equal to themselves. *)
Definition hash_of (t : maptype K) (k : K) (seed : Z) : Z :=
  wrap64 (alg_hash t k seed).

(** The tag of a hash: its top byte, moved out of the reserved range. *)
Definition tophash_of (hash : Z) : Z :=
  let top := wrap8 (shr64 hash (ptrSize * 8 - 8)) in
  if top <? minTopHash then wrap8 (top + minTopHash) else top.

(** ** mapaccessK *)

(** The inner [for i := uintptr(0); i < bucketCnt; i++] of [mapaccessK];
    [n] counts the iterations that remain. *)
Fixpoint access_bucket (n : nat) (m : mem K) (t : maptype K) (kc : K)
    (top b i : Z) : res (option (Z * Z)) :=
  match n with
  | O => Ok None
  | S n' =>
      th ← tophash m b i;
      if negb (th =? top) then access_bucket n' m t kc top b (i + 1)
      else
        k ← deref_if m (indirectkey t) (keyslot t b i);
        kc' ← load_key m k;
        if alg_equal t kc kc' then
          v ← deref_if m (indirectvalue t) (valueslot t b i);
          Ok (Some (k, v))
        else access_bucket n' m t kc top b (i + 1)
  end.

(** The outer [for] of [mapaccessK], one unit of fuel per bucket of the
    chain. *)
Fixpoint access_chain (fuel : nat) (m : mem K) (t : maptype K) (kc : K)
    (top b : Z) : res (Z * Z) :=
  match fuel with
  | O => OutOfFuel
  | S fuel' =>
      r ← access_bucket (Z.to_nat bucketCnt) m t kc top b 0;
      match r with
      | Some kv => Ok kv
      | None =>
          b' ← overflow m t b;
          if b' =? 0 then Ok (0, 0) else access_chain fuel' m t kc top b'
      end
  end.

(** The bucket in which [mapaccessK] starts: the new one, or the old one
    when there is an old array and that bucket is not evacuated. *)
Definition access_start (m : mem K) (t : maptype K) (h : hmap) (hash : Z)
    : res Z :=
  let mk := wrap64 (shl64 1 (hmap_B h) - 1) in
  let b := add (hmap_buckets h) (Z.land hash mk * bucketsize t) in
  if negb (oldbuckets h =? 0) then
    let oldb := add (oldbuckets h) (Z.land hash (shr64 mk 1) * bucketsize t) in
    ev ← evacuated m oldb;
    Ok (if negb (ev : bool) then oldb else b)
  else Ok b.

(** [func mapaccessK(t *maptype, h *hmap, key unsafe.Pointer)
    (unsafe.Pointer, unsafe.Pointer)] *)
Definition mapaccessK (fuel : nat) (m : mem K) (t : maptype K) (hp key : Z)
    : res (Z * Z) :=
  if hp =? 0 then Ok (0, 0)
  else
    h ← load_hmap m hp;
    if count h =? 0 then Ok (0, 0)
    else
      kc ← load_key m key;
      let hash := hash_of t kc (hash0 h) in
      b ← access_start m t h hash;
      access_chain fuel m t kc (tophash_of hash) b.

(** ** Writes to the fields of an iterator *)

Definition set_key_value (it : hiter K) (k v : Z) : hiter K :=
  Hiter k v (it_t it) (it_h it) (buckets it) (bptr it) (overflow0 it)
    (overflow1 it) (startBucket it) (offset it) (wrapped it) (B it) (it_i it)
    (bucket it) (checkBucket it).

Definition set_wrapped (it : hiter K) (w : bool) : hiter K :=
  Hiter (key it) (value it) (it_t it) (it_h it) (buckets it) (bptr it)
    (overflow0 it) (overflow1 it) (startBucket it) (offset it) w (B it)
    (it_i it) (bucket it) (checkBucket it).

(** The writes of a return that yields: [it.key], [it.value], [it.bucket],
    [it.bptr], [it.i] and [it.checkBucket]. *)
Definition set_position (it : hiter K) (k v bkt b i cb : Z) : hiter K :=
  Hiter k v (it_t it) (it_h it) (buckets it) b (overflow0 it) (overflow1 it)
    (startBucket it) (offset it) (wrapped it) (B it) i bkt cb.

(** ** mapiternext *)

(** What the body of the slot loop does with one slot: [continue], or the
    key and value pointers it stores before it returns. *)
Inductive slot_result : Type :=
| SlotSkip
| SlotYield (k v : Z).

(** [t.reflexivekey || alg.equal(k2, k2)]; the key object is read only when
    the flag is not set. *)
Definition key_reflexive (m : mem K) (t : maptype K) (k2 : Z) : res bool :=
  if reflexivekey t then Ok true
  else kc ← load_key m k2; Ok (alg_equal t kc kc).

(** The test of a slot against [checkBucket] (the block under
    [if checkBucket != noCheck]): [true] when the slot is kept. *)
Definition check_slot (m : mem K) (t : maptype K) (it : hiter K)
    (checkBucket k th : Z) : res bool :=
  k2 ← deref_if m (indirectkey t) k;
  refl ← key_reflexive m t k2;
  if (refl : bool) then
    kc ← load_key m k2;
    h ← load_hmap m (it_h it);
    let hash := hash_of t kc (hash0 h) in
    Ok (Z.land hash (wrap64 (shl64 1 (B it) - 1)) =? checkBucket)
  else
    Ok (shr64 checkBucket (wrap8 (B it - 1)) =? Z.land th 1).

(** [offi := (i + it.offset) & (bucketCnt - 1)] *)
Definition slot_index (it : hiter K) (i : Z) : Z :=
  Z.land (wrap8 (i + offset it)) (bucketCnt - 1).

(** The body of [for ; i < bucketCnt; i++] for one [i]. *)
Definition scan_slot (fuel : nat) (m : mem K) (t : maptype K) (it : hiter K)
    (b checkBucket i : Z) : res slot_result :=
  let offi := slot_index it i in
  let k := keyslot t b offi in
  let v := valueslot t b offi in
  th ← tophash m b offi;
  if negb (th =? empty) && negb (th =? evacuatedEmpty) then
    keep ← (if negb (checkBucket =? noCheck)
            then check_slot m t it checkBucket k th
            else Ok true);
    if negb (keep : bool) then Ok SlotSkip
    else if negb (th =? evacuatedX) && negb (th =? evacuatedY) then
      k ← deref_if m (indirectkey t) k;
      v ← deref_if m (indirectvalue t) v;
      Ok (SlotYield k v)
    else
      k2 ← deref_if m (indirectkey t) k;
      refl ← key_reflexive m t k2;
      if (refl : bool) then
        '(rk, rv) ← mapaccessK fuel m t (it_h it) k2;
        if rk =? 0 then Ok SlotSkip else Ok (SlotYield rk rv)
      else
        v ← deref_if m (indirectvalue t) v;
        Ok (SlotYield k2 v)
  else Ok SlotSkip.

(** [for ; i < bucketCnt; i++]: [n] counts the iterations that remain.  The
    result is the [i] at which the loop returned with the pointers stored,
    or [None] when it ran to the end. *)
Fixpoint scan_bucket (n : nat) (fuel : nat) (m : mem K) (t : maptype K)
    (it : hiter K) (b checkBucket i : Z) : res (option (Z * Z * Z)) :=
  match n with
  | O => Ok None
  | S n' =>
      r ← scan_slot fuel m t it b checkBucket i;
      match r with
      | SlotYield k v => Ok (Some (i, k, v))
      | SlotSkip => scan_bucket n' fuel m t it b checkBucket (wrap8 (i + 1))
      end
  end.

(** The choice of the bucket to scan for index [bucket], with the
    [checkBucket] that goes with it. *)
Definition select_bucket (m : mem K) (t : maptype K) (h : hmap)
    (it : hiter K) (bucket : Z) : res (Z * Z) :=
  if negb (oldbuckets h =? 0) && (B it =? hmap_B h) then
    let oldbucket := Z.land bucket (wrap64 (shl64 1 (wrap8 (B it - 1)) - 1)) in
    let b := add (oldbuckets h) (oldbucket * bucketsize t) in
    ev ← evacuated m b;
    if negb (ev : bool) then Ok (b, bucket)
    else Ok (add (buckets it) (bucket * bucketsize t), noCheck)
  else Ok (add (buckets it) (bucket * bucketsize t), noCheck).

(** [bucket++], with the wrap at [1 << it.B] that also sets
    [it.wrapped]. *)
Definition bump_bucket (it : hiter K) (bucket : Z) : hiter K * Z :=
  let bucket := wrap64 (bucket + 1) in
  if bucket =? shl64 1 (B it) then (set_wrapped it true, 0) else (it, bucket).

(** The block under [if b == nil] at the label [next]: the end of the
    iteration ([inl]), or the move to the next bucket ([inr], with the new
    values of [it], [bucket], [b], [i] and [checkBucket]). *)
Definition next_bucket (m : mem K) (t : maptype K) (it : hiter K)
    (bucket : Z) : res (hiter K + hiter K * Z * Z * Z * Z) :=
  if (bucket =? startBucket it) && wrapped it then
    Ok (inl (set_key_value it 0 0))
  else
    h ← load_hmap m (it_h it);
    '(b, checkBucket) ← select_bucket m t h it bucket;
    let '(it, bucket) := bump_bucket it bucket in
    Ok (inr (it, bucket, b, 0, checkBucket)).

(** The body of [mapiternext] from the label [next] on; every [goto next]
    takes one unit of fuel.  Next to the iterator the model returns a ghost
    log, the bucket indices for which the block under [if b == nil] chose a
    bucket during the call, in order; the code keeps no such log. *)
Fixpoint mapiternext_loop (fuel : nat) (m : mem K) (t : maptype K)
    (it : hiter K) (bucket b i checkBucket : Z) : res (hiter K * list Z) :=
  match fuel with
  | O => OutOfFuel
  | S fuel' =>
      let chosen := if b =? 0 then [bucket] else [] in
      st ← (if b =? 0 then next_bucket m t it bucket
            else Ok (inr (it, bucket, b, i, checkBucket)));
      match st with
      | inl it' => Ok (it', [])
      | inr (it, bucket, b, i, checkBucket) =>
          r ← scan_bucket (Z.to_nat (bucketCnt - i)) fuel' m t it b
                checkBucket i;
          match r with
          | Some (i, k, v) =>
              Ok (set_position it k v bucket b (wrap8 (i + 1)) checkBucket,
                  chosen)
          | None =>
              b' ← overflow m t b;
              '(it', log) ← mapiternext_loop fuel' m t it bucket b' 0
                              checkBucket;
              Ok (it', chosen ++ log)
          end
      end
  end.

(** [mapiternext] with the ghost log of the call. *)
Definition mapiternext_log (fuel : nat) (m : mem K) (it : hiter K)
    : res (hiter K * list Z) :=
  t ← of_option (it_t it);
  mapiternext_loop fuel m t it (bucket it) (bptr it) (it_i it)
    (checkBucket it).

(** [func mapiternext(it *hiter)] *)
Definition mapiternext (fuel : nat) (m : mem K) (it : hiter K)
    : res (hiter K) :=
  r ← mapiternext_log fuel m it;
  Ok (fst r).

(** ** mapiterinit *)

(** The random value [r] of [mapiterinit], from the two draws [r1] and [r2]
    of [rand.Uint32()]; the second is used only for tables of more than
    [2^28] buckets. *)
Definition iter_rand (h : hmap) (r1 r2 : Z) : Z :=
  let r := wrap32 r1 in
  if hmap_B h >? 31 - bucketCntBits then wrap64 (r + shl64 (wrap32 r2) 31)
  else r.

(** [func mapiterinit(t *maptype, h *hmap, it *hiter)] with the ghost log of
    its call to [mapiternext]; [hp] is the pointer [h]. *)
Definition mapiterinit_log (fuel : nat) (m : mem K) (t : maptype K) (hp : Z)
    (it : hiter K) (r1 r2 : Z) : res (hiter K * list Z) :=
  let it := Hiter 0 0 None 0 0 0 0 0 (startBucket it) (offset it)
              (wrapped it) (B it) (it_i it) (bucket it) (checkBucket it) in
  if hp =? 0 then Ok (set_key_value it 0 0, [])
  else
    h ← load_hmap m hp;
    if count h =? 0 then Ok (set_key_value it 0 0, [])
    else
      let r := iter_rand h r1 r2 in
      let start := Z.land r (wrap64 (shl64 1 (hmap_B h) - 1)) in
      let off := wrap8 (Z.land (shr64 r (hmap_B h)) (bucketCnt - 1)) in
      mapiternext_log fuel m
        (Hiter 0 0 (Some t) hp (hmap_buckets h) 0 0 0 start off false
           (hmap_B h) (it_i it) start (checkBucket it)).

(** [func mapiterinit(t *maptype, h *hmap, it *hiter)] *)
Definition mapiterinit (fuel : nat) (m : mem K) (t : maptype K) (hp : Z)
    (it : hiter K) (r1 r2 : Z) : res (hiter K) :=
  r ← mapiterinit_log fuel m t hp it r1 r2;
  Ok (fst r).

(** ** A whole traversal *)

(** What a [range] loop sees: it reads [it.key] and [it.value] and advances
    until [it.key] is [nil].  [n] bounds the number of entries.  The result
    is the list of the entries read, with the ghost log of the advances. *)
Fixpoint drain (n : nat) (fuel : nat) (m : mem K) (it : hiter K)
    : res (list (Z * Z) * list Z) :=
  if key it =? 0 then Ok ([], [])
  else
    match n with
    | O => OutOfFuel
    | S n' =>
        '(it', log) ← mapiternext_log fuel m it;
        '(ys, logs) ← drain n' fuel m it';
        Ok ((key it, value it) :: ys, log ++ logs)
    end.

Definition traverse (fuel : nat) (m : mem K) (t : maptype K) (hp : Z)
    (it : hiter K) (r1 r2 : Z) : res (list (Z * Z) * list Z) :=
  '(it', log) ← mapiterinit_log fuel m t hp it r1 r2;
  '(ys, logs) ← drain fuel fuel m it';
  Ok (ys, log ++ logs).

(** [k] further calls of [mapiternext], whatever [it.key] is. *)
Fixpoint advances (k : nat) (fuel : nat) (m : mem K) (it : hiter K)
    : res (hiter K) :=
  match k with
  | O => Ok it
  | S k' => it' ← mapiternext fuel m it; advances k' fuel m it'
  end.

(** ** randMapKey *)

(** [new(hiter)] *)
Definition new_hiter : hiter K :=
  Hiter 0 0 None 0 0 0 0 0 0 0 false 0 0 0 0.

(** [rand.Intn(n)], with the draw [d]: [math/rand] panics when [n <= 0]. *)
Definition intn (n d : Z) : res Z :=
  if n <=? 0 then Fault else Ok (d mod n).

(** [func randMapKey(m interface{}) interface{}]: [t] and [hp] are the two
    words of the interface value [m]; [r1] and [r2] are the draws of
    [mapiterinit], [d] is the draw of [rand.Intn].  The result is the data
    word [it.key] of the interface value returned. *)
Definition randMapKey (fuel : nat) (m : mem K) (t : maptype K) (hp : Z)
    (r1 r2 d : Z) : res Z :=
  it ← mapiterinit fuel m t hp new_hiter r1 r2;
  h ← (if hp =? 0 then Fault else load_hmap m hp);
  r ← intn (count h) d;
  it ← advances (Z.to_nat r) fuel m it;
  Ok (key it).

End Model.

(** * The table behind the pointers

    What the memory must hold for the iterator to walk a table, and the
    entries that the table holds. *)

Section View.

Context {K : Type}.
Implicit Types (m : mem K) (t : maptype K) (h : hmap).

(** [chain m t b bs]: the overflow links from [b] lead through the buckets
    [bs], in order, to [nil]. *)
Inductive chain m t : Z -> list Z -> Prop :=
| chain_end : chain m t 0 []
| chain_link b b' bs :
    b <> 0 -> overflow m t b = Ok b' -> chain m t b' bs ->
    chain m t b (b :: bs).

(** The entry of slot [j] of bucket [b], when the slot is filled: the key
    and value pointers that a reader of the slot gets. *)
Definition slot_live m t (b j : Z) : list (Z * Z) :=
  match tophash m b j,
        deref_if m (indirectkey t) (keyslot t b j),
        deref_if m (indirectvalue t) (valueslot t b j) with
  | Ok th, Ok k, Ok v => if minTopHash <=? th then [(k, v)] else []
  | _, _, _ => []
  end.

Definition bucket_live m t (b : Z) : list (Z * Z) :=
  flat_map (slot_live m t b) (seqZ 0 bucketCnt).

Definition chain_live m t (bs : list Z) : list (Z * Z) :=
  flat_map (bucket_live m t) bs.

(** The buckets of a table: the chain of every bucket of the current array
    and of every bucket of the old array. *)
Record layout : Type := Layout {
  newc : Z -> list Z;
  oldc : Z -> list Z
}.

Definition newbucket t h (i : Z) : Z := add (hmap_buckets h) (i * bucketsize t).
Definition oldbucket t h (j : Z) : Z := add (oldbuckets h) (j * bucketsize t).

(** The live entries of a table: the filled slots of the current array, and
    those of the buckets of the old array that are not evacuated. *)
Definition live_entries m t h (lay : layout) : list (Z * Z) :=
  flat_map (fun i => chain_live m t (newc lay i)) (seqZ 0 (2 ^ hmap_B h)) ++
  (if oldbuckets h =? 0 then []
   else flat_map
          (fun j => match evacuated m (oldbucket t h j) with
                    | Ok false => chain_live m t (oldc lay j)
                    | _ => []
                    end)
          (seqZ 0 (2 ^ (hmap_B h - 1)))).

(** A slot free of evacuation marks: it is empty, or it is filled and its
    key and value pointers can be read, the key pointer not [nil]. *)
Definition slot_clean m t (b j : Z) : Prop :=
  exists th, tophash m b j = Ok th /\
    (th = empty \/
     (minTopHash <= th /\
      exists k v,
        deref_if m (indirectkey t) (keyslot t b j) = Ok k /\
        deref_if m (indirectvalue t) (valueslot t b j) = Ok v /\
        k <> 0)).

Definition bucket_clean m t (b : Z) : Prop :=
  forall j, 0 <= j < bucketCnt -> slot_clean m t b j.

Definition bucket_empty m t (b : Z) : Prop :=
  forall j, 0 <= j < bucketCnt -> tophash m b j = Ok empty.

(** A filled slot of old bucket [j] is in its place: its key can be told
    reflexive or not, and a reflexive key hashes to [j] in the old array. *)
Definition slot_placed m t h (j b jj : Z) : Prop :=
  forall th k2,
    tophash m b jj = Ok th -> minTopHash <= th ->
    deref_if m (indirectkey t) (keyslot t b jj) = Ok k2 ->
    exists r, key_reflexive m t k2 = Ok r /\
      (r = true ->
       exists kc, load_key m k2 = Ok kc /\
         hash_of t kc (hash0 h) mod 2 ^ (hmap_B h - 1) = j).

Definition bucket_placed m t h (j b : Z) : Prop :=
  forall jj, 0 <= jj < bucketCnt -> slot_placed m t h j b jj.

(** A table at rest, as the writers of the runtime leave it: the chains of
    the current array end and hold no evacuation marks; while the table
    grows, each bucket of the old array is evacuated as a whole or not at
    all, and the two buckets into which a bucket not yet evacuated will be
    split are still empty; [count] is the number of live entries. *)
Record wf_table m t h (lay : layout) : Prop := Wf_table {
  wf_B : 0 <= hmap_B h < 64;
  wf_new : forall i, 0 <= i < 2 ^ hmap_B h ->
    newc lay i <> [] /\
    chain m t (newbucket t h i) (newc lay i) /\
    Forall (bucket_clean m t) (newc lay i);
  wf_old : oldbuckets h <> 0 ->
    1 <= hmap_B h /\
    forall j, 0 <= j < 2 ^ (hmap_B h - 1) ->
      exists ev, evacuated m (oldbucket t h j) = Ok ev /\
        (ev = false ->
         oldc lay j <> [] /\
         chain m t (oldbucket t h j) (oldc lay j) /\
         Forall (bucket_clean m t) (oldc lay j) /\
         Forall (bucket_placed m t h j) (oldc lay j) /\
         Forall (bucket_empty m t) (newc lay j) /\
         Forall (bucket_empty m t) (newc lay (j + 2 ^ (hmap_B h - 1))));
  wf_count : count h = Z.of_nat (length (live_entries m t h lay))
}.

(** The order in which a traversal that starts at bucket [s] of [n] takes
    the buckets, from the state in which the next index is [x] and
    [it.wrapped] is [w]. *)
Definition schedule (s n x : Z) (w : bool) : list Z :=
  if w && (x <=? s) then seqZ x (s - x) else seqZ x (n - x) ++ seqZ 0 s.

End View.

(** * The course of a traversal

    Definitions for the proofs about whole traversals.  They describe a
    traversal of the table [h] (at [hp], laid out as [lay]) that starts at
    bucket [s] with the slot offset [off]. *)

(** The entries that the body of the slot loop returns for a slot. *)
Definition yield_of (r : slot_result) : list (Z * Z) :=
  match r with
  | SlotYield k v => [(k, v)]
  | SlotSkip => []
  end.

(** The step of the bucket index, as [bump_bucket] computes it on a table
    of [n] buckets. *)
Definition bump (n x : Z) (w : bool) : Z * bool :=
  if x + 1 =? n then (0, true) else (x + 1, w).

Section Positions.

Context {K : Type}.
Variables (m : mem K) (t : maptype K) (hp : Z) (h : hmap) (lay : layout).
Variables (s off : Z).

(** Slot [i] of bucket [b] holds a key equal to [kc] under the tag [top]. *)
Definition slot_match (kc : K) (top b i : Z) : res bool :=
  th ← tophash m b i;
  if negb (th =? top) then Ok false
  else
    k ← deref_if m (indirectkey t) (keyslot t b i);
    kc' ← load_key m k;
    Ok (alg_equal t kc kc').

(** The bucket and the offset at which [mapiterinit] starts. *)
Definition start_of (r1 r2 : Z) : Z :=
  Z.land (iter_rand h r1 r2) (wrap64 (shl64 1 (hmap_B h) - 1)).
Definition offset_of (r1 r2 : Z) : Z :=
  wrap8 (Z.land (shr64 (iter_rand h r1 r2) (hmap_B h)) (bucketCnt - 1)).

(** The fields that a traversal of this table never changes. *)
Definition conf (it : hiter K) : Prop :=
  it_t it = Some t /\ it_h it = hp /\ buckets it = hmap_buckets h /\
  B it = hmap_B h /\ startBucket it = s /\ offset it = off.

Definition it0 : hiter K :=
  Hiter 0 0 (Some t) hp (hmap_buckets h) 0 0 0 s off false (hmap_B h) 0 s 0.

(** The chain that the traversal scans for bucket index [x], with the
    filter that goes with it. *)
Definition pick (x : Z) : list Z * Z :=
  if negb (oldbuckets h =? 0) then
    match evacuated m (oldbucket t h (x mod 2 ^ (hmap_B h - 1))) with
    | Ok false => (oldc lay (x mod 2 ^ (hmap_B h - 1)), x)
    | _ => (newc lay x, noCheck)
    end
  else (newc lay x, noCheck).

(** The entries yielded by a slot, by a bucket from slot [i] on, by a
    chain, and by the visit of bucket index [x]. *)
Definition syield (b cb i : Z) : list (Z * Z) :=
  match scan_slot 0 m t it0 b cb i with
  | Ok r => yield_of r
  | _ => []
  end.

Definition byield (b cb i : Z) : list (Z * Z) :=
  flat_map (syield b cb) (seqZ i (bucketCnt - i)).

Definition cyield (cb : Z) (bs : list Z) : list (Z * Z) :=
  flat_map (fun b => byield b cb 0) bs.

Definition visit (x : Z) : list (Z * Z) := cyield (snd (pick x)) (fst (pick x)).

(** A bucket whose slots the loop can scan under the filter [cb]: no
    fault, and no [nil] key yielded. *)
Definition scannable (cb b : Z) : Prop :=
  forall i, 0 <= i < bucketCnt ->
    exists r, (forall fuel, scan_slot fuel m t it0 b cb i = Ok r) /\
              (forall k v, r = SlotYield k v -> k <> 0).

(** What is left to yield from a position: the rest of the current chain,
    then the buckets still on the schedule. *)
Definition pending (cb : Z) (cur : list Z) (i : Z) (todo : list Z)
    : list (Z * Z) :=
  match cur with
  | [] => []
  | b :: rest => byield b cb i ++ cyield cb rest
  end ++ flat_map visit todo.

(** A bound on the number of [goto next] still to come. *)
Definition weight (cur todo : list Z) : nat :=
  (length cur + list_sum (map (fun x => S (length (fst (pick x)))) todo))%nat.

Definition sched (x : Z) (w : bool) : list Z := schedule s (2 ^ hmap_B h) x w.

(** The position of a traversal: the locals of [mapiternext] against the
    chain [cur] that is being scanned. *)
Definition cursor (it : hiter K) (bkt b i cb : Z) (cur : list Z) : Prop :=
  conf it /\ 0 <= bkt < 2 ^ hmap_B h /\ (wrapped it = false -> s <= bkt) /\
  (cur <> [] -> 0 <= i <= bucketCnt) /\ chain m t b cur /\
  Forall (scannable cb) cur.

Definition icursor (it : hiter K) (cur : list Z) : Prop :=
  cursor it (bucket it) (bptr it) (it_i it) (checkBucket it) cur.

Definition ipending (it : hiter K) (cur : list Z) : list (Z * Z) :=
  pending (checkBucket it) cur (it_i it) (sched (bucket it) (wrapped it)).

Definition iweight (it : hiter K) (cur : list Z) : nat :=
  weight cur (sched (bucket it) (wrapped it)).

(** The return at the end of the iteration writes [it.key] and [it.value]
    (and, on the way, [it.wrapped]); the position fields stay. *)
Definition same_fields (it it' : hiter K) : Prop :=
  conf it' /\ bucket it' = bucket it /\ bptr it' = bptr it /\
  it_i it' = it_i it /\ checkBucket it' = checkBucket it /\
  (wrapped it = true -> wrapped it' = true) /\ key it' = 0 /\ value it' = 0.

(** What a run of the loop from a position establishes: an entry is
    yielded and the iterator is at the next position, or the iteration is
    over and nothing was left. *)
Definition post (it : hiter K) (bkt i cb : Z) (cur : list Z)
    (it' : hiter K) (log : list Z) : Prop :=
  (exists cur',
     key it' <> 0 /\ icursor it' cur' /\
     pending cb cur i (sched bkt (wrapped it)) =
       (key it', value it') :: ipending it' cur' /\
     sched bkt (wrapped it) = log ++ sched (bucket it') (wrapped it') /\
     (iweight it' cur' <= weight cur (sched bkt (wrapped it)))%nat) \/
  (same_fields it it' /\
   pending cb cur i (sched bkt (wrapped it)) = [] /\
   sched bkt (wrapped it) = log).

(** The loop body of [mapiternext_loop] after the block under
    [if b == nil]. *)
Definition phase (f : nat) (it : hiter K) (bkt b i cb : Z) (chosen : list Z)
    : res (hiter K * list Z) :=
  r ← scan_bucket (Z.to_nat (bucketCnt - i)) f m t it b cb i;
  match r with
  | Some (i, k, v) =>
      Ok (set_position it k v bkt b (wrap8 (i + 1)) cb, chosen)
  | None =>
      b' ← overflow m t b;
      '(it', log) ← mapiternext_loop f m t it bkt b' 0 cb;
      Ok (it', chosen ++ log)
  end.

(** The iterator that [mapiterinit] hands to [mapiternext]. *)
Definition it_start (i0 cb0 : Z) : hiter K :=
  Hiter 0 0 (Some t) hp (hmap_buckets h) 0 0 0 s off false (hmap_B h) i0 s
    cb0.

(** Fuel that is enough for a whole traversal. *)
Definition fuel_start : nat :=
  S (weight [] (sched s false) + length (flat_map visit (sched s false))).

(** The states of an iterator between two calls of [mapiternext]. *)
Definition between (fuel : nat) (it : hiter K) : Prop :=
  exists cur, icursor it cur /\ (iweight it cur < fuel)%nat /\
              (key it = 0 -> ipending it cur = []).

End Positions.

(** * A table in the middle of a growth *)

(** * What an advance keeps *)

Section Kept.

Context {K : Type}.

(** The fields of an iterator that [mapiternext] only reads, and
    [it.wrapped], which it only ever sets. *)
Definition snapshot_kept (it it' : hiter K) : Prop :=
  it_t it' = it_t it /\ it_h it' = it_h it /\ buckets it' = buckets it /\
  overflow0 it' = overflow0 it /\ overflow1 it' = overflow1 it /\
  startBucket it' = startBucket it /\ offset it' = offset it /\
  B it' = B it /\ (wrapped it = true -> wrapped it' = true).

(** A value of [checkBucket] that is the sentinel unless the table of the
    iterator grows and the snapshot [it.B] is its [B]. *)
Definition checkBucket_ok (m : mem K) (it : hiter K) (cb : Z) : Prop :=
  cb <> noCheck ->
  exists h, load_hmap m (it_h it) = Ok h /\ oldbuckets h <> 0 /\
            B it = hmap_B h.

(** Two iterators that differ at most in the fields that a return of
    [mapiternext] with an entry overwrites. *)
Definition same_snapshot (it it' : hiter K) : Prop :=
  it_t it' = it_t it /\ it_h it' = it_h it /\ buckets it' = buckets it /\
  overflow0 it' = overflow0 it /\ overflow1 it' = overflow1 it /\
  startBucket it' = startBucket it /\ offset it' = offset it /\
  wrapped it' = wrapped it /\ B it' = B it.

(** The entries of a table that does not grow, in the order of a traversal
    that starts at bucket [s] with the slot offset [off]. *)
Definition entries_in_order (m : mem K) (t : maptype K) (h : hmap)
    (lay : layout) (s off : Z) : list (Z * Z) :=
  flat_map
    (fun x =>
       flat_map
         (fun b =>
            flat_map (fun i => slot_live m t b ((i + off) mod bucketCnt))
              (seqZ 0 bucketCnt))
         (newc lay x))
    (seqZ s (2 ^ hmap_B h - s) ++ seqZ 0 s).

End Kept.

Module Examples.

(** A key that is not equal to itself, as a NaN is. *)
Definition nan : Z := 999.

(** Keys and values of eight bytes, stored in the buckets; a key hashes to
    itself. *)
Definition tZ : maptype Z :=
  Maptype 8 false 8 false 144 false false
    (fun k _ => k) (fun a b => (a =? b) && negb (a =? nan)).

Definition tophash_cells (b : Z) (tops : list Z) : list (Z * Z) :=
  imap (fun i th => (b + Z.of_nat i, th)) tops.
Definition key_cells (b : Z) (ks : list Z) : list (Z * Z) :=
  imap (fun i k => (b + 8 + 8 * Z.of_nat i, k)) ks.

(** A table that grows from two buckets to four.  Old bucket 0 (at 3000) is
    evacuated: key 4 went to bucket 0 (at 1000), key 6 to bucket 2 (at
    1288).  Old bucket 1 (at 3144, with the overflow bucket 4000) is not:
    it holds the keys 1, 3, [nan] and 5, and buckets 1 and 3 are still
    empty.  A copy of key 3 lies at 7000, outside the table. *)
Definition hP : hmap := Hmap 6 0 2 0 1000 3000 1.

Definition memP : mem Z :=
  Mem (list_to_map [(500, hP)])
      (list_to_map
         (tophash_cells 1000 [4; 0; 0; 0; 0; 0; 0; 0] ++
          tophash_cells 1144 [0; 0; 0; 0; 0; 0; 0; 0] ++
          tophash_cells 1288 [4; 0; 0; 0; 0; 0; 0; 0] ++
          tophash_cells 1432 [0; 0; 0; 0; 0; 0; 0; 0] ++
          tophash_cells 3000 [2; 3; 1; 1; 1; 1; 1; 1] ++
          tophash_cells 3144 [4; 4; 5; 0; 0; 0; 0; 0] ++
          tophash_cells 4000 [0; 0; 0; 0; 0; 0; 4; 0]))
      (list_to_map
         [(1136, 0); (1280, 0); (1424, 0); (1568, 0); (3136, 0);
          (3280, 4000); (4136, 0)])
      (list_to_map
         (key_cells 1000 [4] ++ key_cells 1288 [6] ++ key_cells 3000 [4; 6] ++
          key_cells 3144 [1; 3; nan] ++
          key_cells 4000 [0; 0; 0; 0; 0; 0; 5] ++ [(7000, 3)])).

Definition layP : layout :=
  Layout (fun i => [1000 + 144 * i])
         (fun j => if j =? 1 then [3144; 4000] else [3000]).

(** A zeroed [hiter], as [new(hiter)] gives. *)
Definition itZ : hiter Z := Hiter 0 0 None 0 0 0 0 0 0 0 false 0 0 0 0.

(** An iterator created after the growth began, about to choose the
    bucket for index [bkt]. *)
Definition itP (bkt : Z) : hiter Z :=
  Hiter 0 0 (Some tZ) 500 1000 0 0 0 0 0 false 2 0 bkt 0.

(** An iterator created before the growth began: its snapshot is the old
    array of two buckets. *)
Definition itOld : hiter Z :=
  Hiter 0 0 (Some tZ) 500 3000 0 0 0 0 0 false 1 0 0 0.

(** A memory that holds an empty table and nothing else. *)
Definition hmE : gmap Z hmap := {[600 := Hmap 0 0 0 0 0 0 0]}.

(** The table of [memP] before old bucket 0 was evacuated: the keys 4 and
    6 are still in it (at 3000), and the buckets 0 and 2 are empty. *)
Definition memP_before : mem Z :=
  Mem (list_to_map [(500, Hmap 6 0 2 0 1000 3000 0)])
      (list_to_map
         (tophash_cells 1000 [0; 0; 0; 0; 0; 0; 0; 0] ++
          tophash_cells 1144 [0; 0; 0; 0; 0; 0; 0; 0] ++
          tophash_cells 1288 [0; 0; 0; 0; 0; 0; 0; 0] ++
          tophash_cells 1432 [0; 0; 0; 0; 0; 0; 0; 0] ++
          tophash_cells 3000 [4; 4; 0; 0; 0; 0; 0; 0] ++
          tophash_cells 3144 [4; 4; 5; 0; 0; 0; 0; 0] ++
          tophash_cells 4000 [0; 0; 0; 0; 0; 0; 4; 0]))
      (list_to_map
         [(1136, 0); (1280, 0); (1424, 0); (1568, 0); (3136, 0);
          (3280, 4000); (4136, 0)])
      (list_to_map
         (key_cells 3000 [4; 6] ++ key_cells 3144 [1; 3; nan] ++
          key_cells 4000 [0; 0; 0; 0; 0; 0; 5] ++ [(7000, 3)])).

(** The iterator [itP 0] after one advance on [memP_before]: it is in old
    bucket 0 (at 3000) with [checkBucket = 0], and slot 1 is the next. *)
Definition itP0_next : hiter Z :=
  Hiter 3008 3072 (Some tZ) 500 1000 3000 0 0 0 0 false 2 1 1 0.

(** Two keys whose hashes have the top byte 200. *)
Definition keyA : Z := 200 * 2 ^ 56 + 1.
Definition keyB : Z := 200 * 2 ^ 56 + 3.

(** A table that grows from one bucket to two.  Its old bucket (at 3000) is
    not evacuated and holds the keys 5, [keyB] and [keyA]; a copy of
    [keyA] lies at 7000, outside the table. *)
Definition hT : hmap := Hmap 3 0 1 0 1000 3000 0.

Definition memT : mem Z :=
  Mem (list_to_map [(500, hT)])
      (list_to_map
         (tophash_cells 1000 [0; 0; 0; 0; 0; 0; 0; 0] ++
          tophash_cells 1144 [0; 0; 0; 0; 0; 0; 0; 0] ++
          tophash_cells 3000 [4; 200; 200; 0; 0; 0; 0; 0]))
      (list_to_map [(1136, 0); (1280, 0); (3136, 0)])
      (list_to_map (key_cells 3000 [5; keyB; keyA] ++ [(7000, keyA)])).

(** The iterator [itP 3] after one advance and after two, and a zeroed
    iterator after [mapiterinit] with the draw 6. *)
Definition itP3_next : hiter Z :=
  Hiter 3160 3224 (Some tZ) 500 1000 3144 0 0 0 0 true 2 2 0 3.
Definition itP3_next2 : hiter Z :=
  Hiter 3168 3232 (Some tZ) 500 1000 3144 0 0 0 0 true 2 3 0 3.
Definition itP_first : hiter Z :=
  Hiter 1296 1360 (Some tZ) 500 1000 1288 0 0 2 1 false 2 8 3 noCheck.

(** A table of two buckets that does not grow: key 2 in bucket 0 (at
    1000), key 4 in its overflow bucket (at 2000), key 3 in bucket 1 (at
    1144). *)
Definition hQ : hmap := Hmap 3 0 1 0 1000 0 0.

Definition memQ : mem Z :=
  Mem (list_to_map [(500, hQ)])
      (list_to_map
         (tophash_cells 1000 [4; 0; 0; 0; 0; 0; 0; 0] ++
          tophash_cells 1144 [0; 0; 0; 0; 0; 4; 0; 0] ++
          tophash_cells 2000 [0; 0; 4; 0; 0; 0; 0; 0]))
      (list_to_map [(1136, 2000); (1280, 0); (2136, 0)])
      (list_to_map
         (key_cells 1000 [2] ++ key_cells 1144 [0; 0; 0; 0; 0; 3] ++
          key_cells 2000 [0; 0; 4])).

Definition layQ : layout :=
  Layout (fun i => if i =? 0 then [1000; 2000] else [1144]) (fun _ => []).

(** The empty table of [hmE], in a memory with no other cell. *)
Definition memE : mem Z := Mem hmE ∅ ∅ ∅.

End Examples.

Arguments deref_if : simpl never.
Arguments keyslot : simpl never.
Arguments valueslot : simpl never.
Arguments tophash : simpl never.
Arguments key_reflexive : simpl never.
Arguments check_slot : simpl never.
Arguments mapaccessK : simpl never.
Arguments load_key : simpl never.
Arguments load_hmap : simpl never.
Arguments load_ptr : simpl never.
Arguments load8 : simpl never.
Arguments evacuated : simpl never.
Arguments overflow : simpl never.
Arguments slot_index : simpl never.
Arguments hash_of : simpl never.
Arguments add : simpl never.
Arguments wrap64 : simpl never.
Arguments wrap8 : simpl never.
Arguments wrap32 : simpl never.
Arguments shl64 : simpl never.
Arguments shr64 : simpl never.
Arguments scan_slot : simpl never.
Arguments select_bucket : simpl never.
Arguments next_bucket : simpl never.
Arguments bump_bucket : simpl never.
Arguments seqZ : simpl never.

(** * Properties *)

(** ** Machine arithmetic *)

Lemma wrap64_range z : 0 <= wrap64 z < 2 ^ 64.
Proof. unfold wrap64. apply Z.mod_pos_bound. lia. Qed.

Lemma wrap8_range z : 0 <= wrap8 z < 2 ^ 8.
Proof. unfold wrap8. apply Z.mod_pos_bound. lia. Qed.

Lemma wrap32_range z : 0 <= wrap32 z < 2 ^ 32.
Proof. unfold wrap32. apply Z.mod_pos_bound. lia. Qed.

Lemma wrap64_small z : 0 <= z < 2 ^ 64 -> wrap64 z = z.
Proof. intros. unfold wrap64. apply Z.mod_small. lia. Qed.

Lemma wrap8_small z : 0 <= z < 2 ^ 8 -> wrap8 z = z.
Proof. intros. unfold wrap8. apply Z.mod_small. lia. Qed.

Lemma shl64_one_small s : 0 <= s < 64 -> shl64 1 s = 2 ^ s.
Proof.
  intros Hs. unfold shl64. rewrite Z.shiftl_1_l. apply wrap64_small.
  split; [apply Z.pow_nonneg; lia | apply Z.pow_lt_mono_r; lia].
Qed.

Lemma shl64_one_large s : 64 <= s -> shl64 1 s = 0.
Proof.
  intros Hs. unfold shl64, wrap64. rewrite Z.shiftl_1_l.
  replace s with (64 + (s - 64)) by lia.
  rewrite Z.pow_add_r by lia. rewrite Z.mul_comm. apply Z.mod_mul. lia.
Qed.

(** The mask [uintptr(1)<<s - 1] keeps the low [s] bits, whatever the shift
    count. *)
Lemma mask64_ones s : 0 <= s < 64 -> wrap64 (shl64 1 s - 1) = Z.ones s.
Proof.
  intros Hs. rewrite shl64_one_small by lia. rewrite Z.ones_equiv.
  apply wrap64_small.
  assert (0 < 2 ^ s) by (apply Z.pow_pos_nonneg; lia).
  assert (2 ^ s < 2 ^ 64) by (apply Z.pow_lt_mono_r; lia). lia.
Qed.

Lemma land_mask64 x s :
  0 <= s -> 0 <= x < 2 ^ 64 ->
  Z.land x (wrap64 (shl64 1 s - 1)) = x mod 2 ^ s.
Proof.
  intros Hs Hx. destruct (Z_lt_ge_dec s 64) as [Hlt|Hge].
  - rewrite mask64_ones by lia. apply Z.land_ones. lia.
  - rewrite shl64_one_large by lia.
    replace (wrap64 (0 - 1)) with (Z.ones 64) by reflexivity.
    rewrite Z.land_ones by lia.
    assert (2 ^ 64 <= 2 ^ s) by (apply Z.pow_le_mono_r; lia).
    rewrite !Z.mod_small; lia.
Qed.

Lemma land_pow2_pred x s : 0 <= s -> Z.land x (2 ^ s - 1) = x mod 2 ^ s.
Proof.
  intros Hs. replace (2 ^ s - 1) with (Z.ones s)
    by (rewrite Z.ones_equiv; lia).
  apply Z.land_ones. lia.
Qed.

(** ** Slots and chains *)

Section Slots.
Context {K : Type}.
Implicit Types (m : mem K) (t : maptype K) (it : hiter K) (h : hmap).

Lemma neq_eqb (a b : Z) : a <> b -> (a =? b) = false.
Proof. intros. destruct (Z.eqb_spec a b); [contradiction|reflexivity]. Qed.

Lemma hash_of_range t (k : K) seed : 0 <= hash_of t k seed < 2 ^ 64.
Proof. apply wrap64_range. Qed.

Lemma land_1_cases th : Z.land th 1 = 0 \/ Z.land th 1 = 1.
Proof.
  change (Z.land th 1) with (Z.land th (Z.ones 1)).
  rewrite Z.land_ones by lia. change (2 ^ 1) with 2.
  pose proof (Z.mod_pos_bound th 2 eq_refl). lia.
Qed.

Lemma slot_index_mod it i : slot_index it i = (i + offset it) mod 8.
Proof.
  unfold slot_index, wrap8. change (bucketCnt - 1) with (Z.ones 3).
  rewrite Z.land_ones by lia. change (2 ^ 3) with 8. change (2 ^ 8) with 256.
  Z.div_mod_to_equations. lia.
Qed.

Lemma slot_index_range it i : 0 <= slot_index it i < bucketCnt.
Proof.
  rewrite slot_index_mod. change bucketCnt with 8.
  apply Z.mod_pos_bound. lia.
Qed.

(** [scan_slot] reads three fields of the iterator. *)
Lemma scan_slot_conf fuel m t it it' b cb i :
  offset it = offset it' -> B it = B it' -> it_h it = it_h it' ->
  scan_slot fuel m t it b cb i = scan_slot fuel m t it' b cb i.
Proof.
  intros Ho HB Hh. unfold scan_slot, check_slot, slot_index.
  rewrite Ho, HB, Hh. reflexivity.
Qed.

Lemma tophash_range m b j th : tophash m b j = Ok th -> 0 <= th < 2 ^ 8.
Proof.
  unfold tophash, load8. destruct (m_byte m !! add b j); simpl; [|discriminate].
  intros [= <-]. apply wrap8_range.
Qed.

(** A clean slot under no filter: the entry of the slot, if it has one. *)
Lemma scan_slot_clean m t it b i :
  slot_clean m t b (slot_index it i) ->
  exists r,
    (forall fuel, scan_slot fuel m t it b noCheck i = Ok r) /\
    yield_of r = slot_live m t b (slot_index it i) /\
    (forall k v, r = SlotYield k v -> k <> 0).
Proof.
  intros (th & Hth & [->|(Hmin & k & v & Hk & Hv & Hk0)]).
  - exists SlotSkip. split; [|split].
    + intros fuel. unfold scan_slot. rewrite Hth. reflexivity.
    + unfold slot_live. rewrite Hth.
      destruct (deref_if _ _ _); [destruct (deref_if _ _ _)|..]; reflexivity.
    + discriminate.
  - unfold minTopHash in Hmin. exists (SlotYield k v). split; [|split].
    + intros fuel. unfold scan_slot. rewrite Hth. simpl.
      rewrite (neq_eqb th empty), (neq_eqb th evacuatedEmpty)
        by (unfold empty, evacuatedEmpty; lia).
      rewrite ?Z.eqb_refl. simpl.
      rewrite (neq_eqb th evacuatedX), (neq_eqb th evacuatedY)
        by (unfold evacuatedX, evacuatedY; lia).
      simpl. rewrite Hk. simpl. rewrite Hv. reflexivity.
    + unfold slot_live. rewrite Hth, Hk, Hv.
      destruct (Z.leb_spec minTopHash th); [reflexivity|unfold minTopHash in *; lia].
    + intros ? ? [= <- <-]. assumption.
Qed.

(** An empty slot yields nothing, whatever the filter. *)
Lemma scan_slot_empty fuel m t it b cb i :
  tophash m b (slot_index it i) = Ok empty ->
  scan_slot fuel m t it b cb i = Ok SlotSkip.
Proof. intros Hth. unfold scan_slot. rewrite Hth. reflexivity. Qed.

(** A slot of old bucket [j] that is not evacuated, seen from the two
    buckets into which [j] splits: one of them takes the entry. *)
Lemma scan_slot_split m t it h b i j :
  load_hmap m (it_h it) = Ok h -> B it = hmap_B h ->
  1 <= hmap_B h < 64 -> 0 <= j < 2 ^ (hmap_B h - 1) ->
  slot_clean m t b (slot_index it i) ->
  slot_placed m t h j b (slot_index it i) ->
  exists r1 r2,
    (forall fuel, scan_slot fuel m t it b j i = Ok r1) /\
    (forall fuel,
       scan_slot fuel m t it b (j + 2 ^ (hmap_B h - 1)) i = Ok r2) /\
    ((yield_of r1 = slot_live m t b (slot_index it i) /\ r2 = SlotSkip) \/
     (r1 = SlotSkip /\ yield_of r2 = slot_live m t b (slot_index it i))) /\
    (forall k v, r1 = SlotYield k v \/ r2 = SlotYield k v -> k <> 0).
Proof.
  intros Hh HB HBr Hj (th & Hth & Hcl) Hpl.
  destruct Hcl as [->|(Hmin & k & v & Hk & Hv & Hk0)].
  { exists SlotSkip, SlotSkip. repeat split.
    - intros; apply scan_slot_empty; assumption.
    - intros; apply scan_slot_empty; assumption.
    - left. split; [|reflexivity]. unfold slot_live. rewrite Hth.
      destruct (deref_if _ _ _); [destruct (deref_if _ _ _)|..]; reflexivity.
    - intros ? ? [?|?]; discriminate. }
  destruct (Hpl th k Hth Hmin Hk) as (r & Hr & Hhash).
  assert (Hhalf : 0 < 2 ^ (hmap_B h - 1)) by (apply Z.pow_pos_nonneg; lia).
  assert (Hhalf' : 2 ^ (hmap_B h - 1) <= 2 ^ 62) by (apply Z.pow_le_mono_r; lia).
  assert (Hdouble : 2 ^ hmap_B h = 2 ^ (hmap_B h - 1) * 2).
  { replace (hmap_B h) with ((hmap_B h - 1) + 1) at 1 by lia.
    rewrite Z.pow_add_r by lia. reflexivity. }
  assert (Hn : noCheck = 2 ^ 64 - 1) by reflexivity.
  assert (Hlive : slot_live m t b (slot_index it i) = [(k, v)]).
  { unfold slot_live. rewrite Hth, Hk, Hv.
    destruct (Z.leb_spec minTopHash th); [reflexivity|lia]. }
  (* the shape of [scan_slot] on this slot, for a filter [cb] *)
  assert (Hscan : forall fuel cb keep, cb <> noCheck ->
            check_slot m t it cb (keyslot t b (slot_index it i)) th = Ok keep ->
            scan_slot fuel m t it b cb i =
              Ok (if keep then SlotYield k v else SlotSkip)).
  { intros fuel cb keep Hcb Hc. unfold minTopHash in Hmin.
    unfold scan_slot. rewrite Hth. simpl.
    rewrite (neq_eqb th empty), (neq_eqb th evacuatedEmpty)
      by (unfold empty, evacuatedEmpty; lia).
    rewrite (neq_eqb cb noCheck) by assumption. simpl. rewrite Hc. simpl.
    destruct keep; simpl; [|reflexivity].
    rewrite (neq_eqb th evacuatedX), (neq_eqb th evacuatedY)
      by (unfold evacuatedX, evacuatedY; lia).
    simpl. rewrite Hk. simpl. rewrite Hv. reflexivity. }
  assert (Hcheck : exists d, (d = j \/ d = j + 2 ^ (hmap_B h - 1)) /\
            forall cb, check_slot m t it cb (keyslot t b (slot_index it i)) th
                       = Ok (match r with
                             | true => d =? cb
                             | false => Z.shiftr cb (hmap_B h - 1) =? Z.land th 1
                             end)).
  { destruct r.
    - destruct (Hhash eq_refl) as (kc & Hkc & Hmod).
      exists (hash_of t kc (hash0 h) mod 2 ^ hmap_B h). split.
      + rewrite Hdouble. rewrite Z.rem_mul_r by lia. rewrite Hmod.
        pose proof (Z.mod_pos_bound (hash_of t kc (hash0 h) / 2 ^ (hmap_B h - 1)) 2 eq_refl).
        assert (Hc : (hash_of t kc (hash0 h) / 2 ^ (hmap_B h - 1)) mod 2 = 0 \/
                     (hash_of t kc (hash0 h) / 2 ^ (hmap_B h - 1)) mod 2 = 1) by lia.
        destruct Hc as [-> | ->]; lia.
      + intros cb. unfold check_slot. rewrite Hk. simpl. rewrite Hr. simpl.
        rewrite Hkc. simpl. rewrite Hh. simpl. rewrite HB.
        rewrite land_mask64 by (auto using hash_of_range; lia). reflexivity.
    - exists j. split; [left; reflexivity|].
      intros cb. unfold check_slot. rewrite Hk. simpl. rewrite Hr. simpl.
      rewrite HB. rewrite (wrap8_small (hmap_B h - 1)) by lia. reflexivity. }
  destruct Hcheck as (d & Hd & Hcheck).
  assert (Hlo : Z.shiftr j (hmap_B h - 1) = 0).
  { rewrite Z.shiftr_div_pow2 by lia. apply Z.div_small. lia. }
  assert (Hhi : Z.shiftr (j + 2 ^ (hmap_B h - 1)) (hmap_B h - 1) = 1).
  { rewrite Z.shiftr_div_pow2 by lia.
    replace (j + 2 ^ (hmap_B h - 1)) with (j + 1 * 2 ^ (hmap_B h - 1)) by lia.
    rewrite Z.div_add by lia. rewrite Z.div_small by lia. reflexivity. }
  eexists _, _. split; [|split; [|split]].
  - intros fuel. apply Hscan; [lia|apply Hcheck].
  - intros fuel. apply Hscan; [lia|apply Hcheck].
  - rewrite Hlive. destruct r.
    + destruct Hd as [-> | ->].
      * left. rewrite Z.eqb_refl, neq_eqb by lia. split; reflexivity.
      * right. rewrite Z.eqb_refl, neq_eqb by lia. split; reflexivity.
    + rewrite Hlo, Hhi. destruct (land_1_cases th) as [-> | ->]; simpl; auto.
  - intros k' v' [Hy|Hy].
    + destruct (match r with true => _ | false => _ end) in Hy;
        [injection Hy as <- <-; assumption|discriminate].
    + destruct (match r with true => _ | false => _ end) in Hy;
        [injection Hy as <- <-; assumption|discriminate].
Qed.

Lemma chain_nonempty m t b bs :
  chain m t b bs -> bs <> [] ->
  exists rest b', bs = b :: rest /\ b <> 0 /\ overflow m t b = Ok b' /\
                  chain m t b' rest.
Proof. intros Hc Hne. destruct Hc; [congruence|eauto 10]. Qed.

Lemma chain_nil_inv m t bs : chain m t 0 bs -> bs = [].
Proof. intros Hc. inversion Hc; [reflexivity|congruence]. Qed.

Lemma chain_cons_inv m t b b1 rest :
  chain m t b (b1 :: rest) ->
  b = b1 /\ b <> 0 /\ exists b', overflow m t b = Ok b' /\ chain m t b' rest.
Proof. intros Hc. inversion Hc; subst. eauto 10. Qed.

End Slots.

(** ** The steps of an advance and of a lookup *)

Section Steps.
Context {K : Type}.
Implicit Types (m : mem K) (t : maptype K) (it : hiter K).

(** C10.  On a [nil] table, or on a table whose [count] is zero, a lookup
    returns [nil, nil] for every key: whatever the byte, pointer and key
    cells of the memory hold (none of them need be mapped), and with any
    fuel, the chain loop not being entered. *)
Theorem mapaccessK_nil_or_empty (hm : gmap Z hmap) t (hp key : Z) :
  hp = 0 \/ (exists h, hm !! hp = Some h /\ count h = 0) ->
  forall fuel bytes ptrs keys,
    mapaccessK fuel (Mem hm bytes ptrs keys) t hp key = Ok (0, 0).
Proof.
  intros Hempty fuel bytes ptrs keys. unfold mapaccessK.
  destruct (Z.eqb_spec hp 0) as [|Hne]; [reflexivity|].
  destruct Hempty as [?|(h & Hh & Hc)]; [contradiction|].
  unfold load_hmap. simpl. rewrite Hh. simpl. rewrite Hc. reflexivity.
Qed.

(** C2.  While the table grows and the snapshot [it.B] is the [B] of the
    table, the block under [if b == nil] takes the old bucket at index
    [bucket mod 2^(B-1)]: when that bucket is not evacuated the loop goes on
    in it with [checkBucket = bucket]; when it is evacuated the loop goes on
    in bucket [bucket] of the snapshot array with [checkBucket = noCheck]. *)
Theorem next_bucket_growing m t it bucket h :
  load_hmap m (it_h it) = Ok h ->
  oldbuckets h <> 0 -> B it = hmap_B h ->
  1 <= B it < 2 ^ 8 -> 0 <= bucket < 2 ^ 64 ->
  (bucket =? startBucket it) && wrapped it = false ->
  let oldb := add (oldbuckets h) (bucket mod 2 ^ (B it - 1) * bucketsize t) in
  (evacuated m oldb = Ok false ->
   next_bucket m t it bucket =
     Ok (inr (fst (bump_bucket it bucket), snd (bump_bucket it bucket),
              oldb, 0, bucket))) /\
  (evacuated m oldb = Ok true ->
   next_bucket m t it bucket =
     Ok (inr (fst (bump_bucket it bucket), snd (bump_bucket it bucket),
              add (buckets it) (bucket * bucketsize t), 0, noCheck))).
Proof.
  intros Hh Hold HB HBr Hbk Hend oldb.
  assert (Hsel : select_bucket m t h it bucket =
                 (ev ← evacuated m oldb;
                  if negb (ev : bool) then Ok (oldb, bucket)
                  else Ok (add (buckets it) (bucket * bucketsize t), noCheck))).
  { unfold select_bucket.
    destruct (Z.eqb_spec (oldbuckets h) 0); [contradiction|].
    rewrite <- HB, Z.eqb_refl. simpl.
    rewrite (wrap8_small (B it - 1)) by lia.
    rewrite land_mask64 by lia. reflexivity. }
  unfold next_bucket. rewrite Hend, Hh. simpl. rewrite Hsel.
  split; intros Hev; rewrite Hev; simpl; destruct (bump_bucket it bucket); reflexivity.
Qed.

(** C3.  Under an active [checkBucket], a filled slot whose key is
    reflexive is yielded only if the hash of the key, masked with
    [2^B - 1], is [checkBucket]; otherwise the slot is skipped.  It is left
    for the visit of its destination: a slot of a bucket that is not
    evacuated (no evacuation mark) is yielded, with its own key and value
    pointers, when [checkBucket] is the masked hash; and while the table
    grows, the choice of a bucket for the index [dest] takes the old bucket
    [dest mod 2^(B-1)], when it is not evacuated, with
    [checkBucket = dest]. *)
Theorem scan_slot_check_reflexive fuel m t it b cb i th k2 kc h :
  cb <> noCheck ->
  tophash m b (slot_index it i) = Ok th ->
  th <> empty -> th <> evacuatedEmpty ->
  deref_if m (indirectkey t) (keyslot t b (slot_index it i)) = Ok k2 ->
  key_reflexive m t k2 = Ok true ->
  load_key m k2 = Ok kc ->
  load_hmap m (it_h it) = Ok h ->
  0 <= B it ->
  let dest := Z.land (hash_of t kc (hash0 h)) (2 ^ B it - 1) in
  (forall k v, scan_slot fuel m t it b cb i = Ok (SlotYield k v) -> dest = cb) /\
  (dest <> cb -> scan_slot fuel m t it b cb i = Ok SlotSkip) /\
  (dest = cb -> th <> evacuatedX -> th <> evacuatedY ->
   forall v,
     deref_if m (indirectvalue t) (valueslot t b (slot_index it i)) = Ok v ->
     scan_slot fuel m t it b cb i = Ok (SlotYield k2 v)) /\
  (oldbuckets h <> 0 -> B it = hmap_B h -> 1 <= B it < 2 ^ 8 ->
   evacuated m (oldbucket t h (dest mod 2 ^ (B it - 1))) = Ok false ->
   select_bucket m t h it dest =
     Ok (oldbucket t h (dest mod 2 ^ (B it - 1)), dest)).
Proof.
  intros Hcb Hth Hne Hnee Hk2 Hrefl Hkc Hh HB dest.
  assert (Hcheck : check_slot m t it cb (keyslot t b (slot_index it i)) th
                   = Ok (dest =? cb)).
  { unfold check_slot. rewrite Hk2. simpl. rewrite Hrefl. simpl.
    rewrite Hkc. simpl. rewrite Hh. simpl.
    rewrite land_mask64 by (auto using hash_of_range).
    unfold dest. rewrite land_pow2_pred by lia. reflexivity. }
  assert (Hscan : forall r, scan_slot fuel m t it b cb i = Ok r ->
                            dest <> cb -> r = SlotSkip).
  { intros r. unfold scan_slot. rewrite Hth. simpl.
    rewrite (neq_eqb th empty), (neq_eqb th evacuatedEmpty) by assumption.
    rewrite (neq_eqb cb noCheck) by assumption. simpl.
    rewrite Hcheck. simpl. intros Hr Hd.
    rewrite (neq_eqb dest cb) in Hr by assumption. simpl in Hr. congruence. }
  split; [|split; [|split]].
  - intros k v Hy. destruct (Z.eq_dec dest cb) as [|Hd]; [assumption|].
    specialize (Hscan _ Hy Hd). discriminate.
  - intros Hd. unfold scan_slot. rewrite Hth. simpl.
    rewrite (neq_eqb th empty), (neq_eqb th evacuatedEmpty) by assumption.
    rewrite (neq_eqb cb noCheck) by assumption. simpl.
    rewrite Hcheck. simpl. rewrite (neq_eqb dest cb) by assumption.
    reflexivity.
  - intros Hd HnX HnY v Hv. unfold scan_slot. rewrite Hth. simpl.
    rewrite (neq_eqb th empty), (neq_eqb th evacuatedEmpty) by assumption.
    rewrite (neq_eqb cb noCheck) by assumption. simpl.
    rewrite Hcheck. simpl. rewrite Hd, Z.eqb_refl. simpl.
    rewrite (neq_eqb th evacuatedX), (neq_eqb th evacuatedY) by assumption.
    simpl. rewrite Hk2. simpl. rewrite Hv. reflexivity.
  - intros Hold HBh HBr Hev.
    assert (Hdest : 0 <= dest < 2 ^ 64).
    { unfold dest. rewrite land_pow2_pred by lia.
      pose proof (hash_of_range t kc (hash0 h)) as Hr.
      assert (0 < 2 ^ B it) by (apply Z.pow_pos_nonneg; lia).
      pose proof (Z.mod_pos_bound (hash_of t kc (hash0 h)) (2 ^ B it)).
      pose proof (Z.mod_le (hash_of t kc (hash0 h)) (2 ^ B it)). lia. }
    unfold select_bucket.
    destruct (Z.eqb_spec (oldbuckets h) 0); [contradiction|].
    rewrite <- HBh, Z.eqb_refl. simpl.
    rewrite (wrap8_small (B it - 1)) by lia.
    rewrite land_mask64 by lia.
    fold (oldbucket t h (dest mod 2 ^ (B it - 1))).
    rewrite Hev. reflexivity.
Qed.

(** What [scan_slot] does with a slot whose key is not equal to itself. *)
Lemma scan_slot_nonreflexive fuel m t it b cb i th k2 v :
  cb <> noCheck ->
  tophash m b (slot_index it i) = Ok th ->
  th <> empty -> th <> evacuatedEmpty ->
  deref_if m (indirectkey t) (keyslot t b (slot_index it i)) = Ok k2 ->
  key_reflexive m t k2 = Ok false ->
  deref_if m (indirectvalue t) (valueslot t b (slot_index it i)) = Ok v ->
  1 <= B it < 2 ^ 8 ->
  scan_slot fuel m t it b cb i =
    Ok (if Z.shiftr cb (B it - 1) =? Z.land th 1 then SlotYield k2 v
        else SlotSkip).
Proof.
  intros Hcb Hth Hne Hnee Hk2 Hrefl Hv HB.
  unfold scan_slot. rewrite Hth. simpl.
  rewrite (neq_eqb th empty), (neq_eqb th evacuatedEmpty) by assumption.
  rewrite (neq_eqb cb noCheck) by assumption. simpl.
  unfold check_slot. rewrite Hk2. simpl. rewrite Hrefl. simpl.
  rewrite (wrap8_small (B it - 1)) by lia. unfold shr64.
  destruct (Z.shiftr cb (B it - 1) =? Z.land th 1); simpl; [|reflexivity].
  destruct (negb (th =? evacuatedX) && negb (th =? evacuatedY)).
  - simpl. rewrite Hv. reflexivity.
  - simpl. rewrite ?Hrefl. simpl. rewrite Hv. reflexivity.
Qed.

(** C6.  Under an active [checkBucket], a filled slot whose key is not
    reflexive is skipped exactly when [checkBucket >> (B-1)] differs from
    the low bit of its tophash, without fault; hence of the two buckets
    [j] and [j + 2^(B-1)] into which old bucket [j] splits, exactly one
    yields the entry. *)
Theorem scan_slot_check_nonreflexive fuel m t it b i th k2 v :
  tophash m b (slot_index it i) = Ok th ->
  th <> empty -> th <> evacuatedEmpty ->
  deref_if m (indirectkey t) (keyslot t b (slot_index it i)) = Ok k2 ->
  key_reflexive m t k2 = Ok false ->
  deref_if m (indirectvalue t) (valueslot t b (slot_index it i)) = Ok v ->
  1 <= B it < 64 ->
  (forall cb, cb <> noCheck ->
     (scan_slot fuel m t it b cb i = Ok SlotSkip <->
      Z.shiftr cb (B it - 1) <> Z.land th 1) /\
     (Z.shiftr cb (B it - 1) = Z.land th 1 ->
      scan_slot fuel m t it b cb i = Ok (SlotYield k2 v))) /\
  (forall j, 0 <= j < 2 ^ (B it - 1) ->
     let lo := scan_slot fuel m t it b j i in
     let hi := scan_slot fuel m t it b (j + 2 ^ (B it - 1)) i in
     (lo = Ok (SlotYield k2 v) /\ hi = Ok SlotSkip) \/
     (lo = Ok SlotSkip /\ hi = Ok (SlotYield k2 v))).
Proof.
  intros Hth Hne Hnee Hk2 Hrefl Hv HB.
  assert (Hstep : forall cb, cb <> noCheck ->
            scan_slot fuel m t it b cb i =
              Ok (if Z.shiftr cb (B it - 1) =? Z.land th 1 then SlotYield k2 v
                  else SlotSkip)).
  { intros cb Hcb. eapply scan_slot_nonreflexive; eauto. lia. }
  split.
  - intros cb Hcb. rewrite (Hstep cb Hcb).
    destruct (Z.eqb_spec (Z.shiftr cb (B it - 1)) (Z.land th 1)) as [He|He].
    + split; [split; [discriminate|contradiction]|reflexivity].
    + split; [split; [auto|reflexivity]|contradiction].
  - intros j Hj lo hi. subst lo hi.
    assert (Hp : 0 < 2 ^ (B it - 1)) by (apply Z.pow_pos_nonneg; lia).
    assert (Hp' : 2 ^ (B it - 1) <= 2 ^ 62) by (apply Z.pow_le_mono_r; lia).
    assert (Hn : noCheck = 2 ^ 64 - 1) by reflexivity.
    rewrite !Hstep by lia.
    assert (Hlo : Z.shiftr j (B it - 1) = 0).
    { rewrite Z.shiftr_div_pow2 by lia. apply Z.div_small. lia. }
    assert (Hhi : Z.shiftr (j + 2 ^ (B it - 1)) (B it - 1) = 1).
    { rewrite Z.shiftr_div_pow2 by lia.
      replace (j + 2 ^ (B it - 1)) with (j + 1 * 2 ^ (B it - 1)) by lia.
      rewrite Z.div_add by lia. rewrite Z.div_small by lia. reflexivity. }
    rewrite Hlo, Hhi.
    destruct (land_1_cases th) as [Hb|Hb]; rewrite Hb; simpl; auto.
Qed.

(** C4, as amended.  For a slot marked [evacuatedX] or [evacuatedY] that
    the filter lets through ([checkBucket] is [noCheck], or the test of the
    slot against [checkBucket] succeeds): when the key is reflexive the
    slot yields what [mapaccessK] finds for the key in the current table,
    and is skipped when [mapaccessK] returns a [nil] key; when the key is
    not reflexive the slot yields the stale copy. *)
Theorem scan_slot_evacuated fuel m t it b cb i th k2 :
  tophash m b (slot_index it i) = Ok th ->
  th = evacuatedX \/ th = evacuatedY ->
  deref_if m (indirectkey t) (keyslot t b (slot_index it i)) = Ok k2 ->
  cb = noCheck \/
    check_slot m t it cb (keyslot t b (slot_index it i)) th = Ok true ->
  (key_reflexive m t k2 = Ok true ->
   forall rk rv, mapaccessK fuel m t (it_h it) k2 = Ok (rk, rv) ->
     scan_slot fuel m t it b cb i =
       Ok (if rk =? 0 then SlotSkip else SlotYield rk rv)) /\
  (key_reflexive m t k2 = Ok false ->
   forall v,
     deref_if m (indirectvalue t) (valueslot t b (slot_index it i)) = Ok v ->
     scan_slot fuel m t it b cb i = Ok (SlotYield k2 v)).
Proof.
  intros Hth Hev Hk2 Hkeep.
  assert (Hpre : forall r : res slot_result,
    scan_slot fuel m t it b cb i =
      (k2' ← deref_if m (indirectkey t) (keyslot t b (slot_index it i));
       refl ← key_reflexive m t k2';
       if (refl : bool) then
         '(rk, rv) ← mapaccessK fuel m t (it_h it) k2';
         if rk =? 0 then Ok SlotSkip else Ok (SlotYield rk rv)
       else
         v ← deref_if m (indirectvalue t) (valueslot t b (slot_index it i));
         Ok (SlotYield k2' v))).
  { intros _. unfold scan_slot. rewrite Hth. simpl.
    assert (Hkeep' : (if negb (cb =? noCheck)
                      then check_slot m t it cb (keyslot t b (slot_index it i)) th
                      else Ok true) = Ok true).
    { destruct Hkeep as [->|Hc]; [rewrite Z.eqb_refl; reflexivity|].
      rewrite Hc. destruct (negb (cb =? noCheck)); reflexivity. }
    rewrite Hkeep'. simpl.
    destruct Hev as [->| ->]; reflexivity. }
  rewrite (Hpre Fault), Hk2. simpl. split.
  - intros Hr rk rv Hacc. rewrite Hr. simpl. rewrite Hacc. simpl.
    destruct (rk =? 0); reflexivity.
  - intros Hr v Hv. rewrite Hr. simpl. rewrite Hv. reflexivity.
Qed.


End Steps.

(** ** The schedule of the bucket indices *)

Section Schedule.

Variables (s n : Z).
Hypothesis Hs : 0 <= s < n.

Lemma schedule_end : schedule s n s true = [].
Proof.
  unfold schedule. rewrite Z.leb_refl. simpl. apply seqZ_nil. lia.
Qed.

Lemma schedule_step x w :
  0 <= x < n -> (w = false -> s <= x) -> (x =? s) && w = false ->
  schedule s n x w = x :: schedule s n (fst (bump n x w)) (snd (bump n x w)) /\
  0 <= fst (bump n x w) < n /\
  (snd (bump n x w) = false -> s <= fst (bump n x w)) /\
  (w = true -> snd (bump n x w) = true).
Proof.
  intros Hx Hw Hend. unfold bump.
  destruct (Z.eqb_spec (x + 1) n) as [Hn|Hn]; simpl.
  - (* the wrap *)
    repeat split; try lia; try discriminate.
    unfold schedule. simpl.
    destruct (Z.leb_spec 0 s); [|lia].
    replace (s - 0) with s by lia.
    destruct w; simpl.
    + destruct (Z.leb_spec x s).
      * assert (x = s) by lia. subst x. rewrite Z.eqb_refl in Hend. discriminate.
      * rewrite (seqZ_cons x) by lia. rewrite (seqZ_nil _ (Z.pred _)) by lia.
        reflexivity.
    + rewrite (seqZ_cons x) by lia. rewrite (seqZ_nil _ (Z.pred _)) by lia.
      reflexivity.
  - repeat split; try lia.
    + unfold schedule. destruct w; simpl.
      * destruct (Z.leb_spec x s) as [Hle|Hgt].
        -- destruct (Z.eqb_spec x s); [discriminate|].
           destruct (Z.leb_spec (x + 1) s); [|lia].
           rewrite (seqZ_cons x) by lia. f_equal. f_equal; lia.
        -- destruct (Z.leb_spec (x + 1) s); [lia|].
           rewrite (seqZ_cons x) by lia. simpl. f_equal. f_equal. f_equal; lia.
      * rewrite (seqZ_cons x) by lia. simpl. f_equal. f_equal. f_equal; lia.
    + intros ->. specialize (Hw eq_refl). lia.
    + auto.
Qed.

(** Marking a state as wrapped keeps a suffix of its schedule. *)
Lemma schedule_wrapped x w :
  0 <= x < n -> (w = false -> s <= x) ->
  schedule s n x true = schedule s n x w \/ schedule s n x true = [].
Proof.
  intros Hx Hw. destruct w; [left; reflexivity|].
  specialize (Hw eq_refl). unfold schedule. simpl.
  destruct (Z.leb_spec x s); [|left; reflexivity].
  right. apply seqZ_nil. lia.
Qed.

End Schedule.

(** ** Lists *)

Section Lists.
Context {A C : Type}.

Lemma flat_map_app_perm (f g : A -> list C) (l : list A) :
  flat_map f l ++ flat_map g l ≡ₚ flat_map (fun x => f x ++ g x) l.
Proof.
  induction l as [|x l IH]; simpl; [reflexivity|].
  rewrite <- IH. rewrite <- !app_assoc. apply Permutation_app_head.
  rewrite !app_assoc. apply Permutation_app_tail. apply Permutation_app_comm.
Qed.

Lemma flat_map_perm_ext (f g : A -> list C) (l : list A) :
  (forall x, x ∈ l -> f x ≡ₚ g x) -> flat_map f l ≡ₚ flat_map g l.
Proof.
  induction l as [|x l IH]; intros Hfg; simpl; [reflexivity|].
  apply Permutation_app.
  - apply Hfg. left.
  - apply IH. intros y Hy. apply Hfg. right. assumption.
Qed.

Lemma flat_map_map {D : Type} (f : A -> list C) (g : D -> A) (l : list D) :
  flat_map f (map g l) = flat_map (fun x => f (g x)) l.
Proof. induction l; simpl; congruence. Qed.

End Lists.

Lemma seqZ_rotate s n :
  0 <= s <= n -> seqZ s (n - s) ++ seqZ 0 s ≡ₚ seqZ 0 n.
Proof.
  intros Hs. rewrite Permutation_app_comm.
  replace n with (s + (n - s)) at 2 by lia.
  rewrite seqZ_app by lia. reflexivity.
Qed.

Lemma slot_rotation {K} (it : hiter K) :
  map (slot_index it) (seqZ 0 bucketCnt) ≡ₚ seqZ 0 bucketCnt.
Proof.
  assert (Hm : map (slot_index it) (seqZ 0 bucketCnt) =
               map (fun i => (i + offset it mod 8) mod 8) (seqZ 0 bucketCnt)).
  { apply map_ext. intros i. rewrite slot_index_mod.
    rewrite Zplus_mod_idemp_r. reflexivity. }
  rewrite Hm. clear Hm.
  pose proof (Z.mod_pos_bound (offset it) 8 eq_refl) as Ho.
  set (o := offset it mod 8) in *.
  assert (Hc : o = 0 \/ o = 1 \/ o = 2 \/ o = 3 \/ o = 4 \/ o = 5 \/ o = 6 \/
               o = 7) by lia.
  destruct Hc as [-> |[-> |[-> |[-> |[-> |[-> |[-> | ->]]]]]]];
    [ exact (seqZ_rotate 0 8 ltac:(lia))
    | exact (seqZ_rotate 1 8 ltac:(lia))
    | exact (seqZ_rotate 2 8 ltac:(lia))
    | exact (seqZ_rotate 3 8 ltac:(lia))
    | exact (seqZ_rotate 4 8 ltac:(lia))
    | exact (seqZ_rotate 5 8 ltac:(lia))
    | exact (seqZ_rotate 6 8 ltac:(lia))
    | exact (seqZ_rotate 7 8 ltac:(lia)) ].
Qed.

Lemma flat_map_seqZ_shift {C : Type} (f : Z -> list C) (d a n : Z) :
  flat_map f (seqZ (a + d) n) = flat_map (fun j => f (j + d)) (seqZ a n).
Proof.
  destruct (Z_le_gt_dec n 0) as [Hn|Hn].
  { rewrite !seqZ_nil by lia. reflexivity. }
  rewrite <- (Z2Nat.id n) by lia. generalize (Z.to_nat n) as k. clear.
  intros k. revert a. induction k as [|k IH]; intros a.
  - rewrite !seqZ_nil by lia. reflexivity.
  - rewrite !(seqZ_cons _ (Z.of_nat (S k))) by lia. simpl.
    replace (Z.pred (Z.of_nat (S k))) with (Z.of_nat k) by lia.
    replace (Z.succ (a + d)) with (Z.succ a + d) by lia.
    rewrite IH. reflexivity.
Qed.

(** ** A walk over a table at rest *)

Section Walk.

Context {K : Type}.
Variables (m : mem K) (t : maptype K) (hp : Z) (h : hmap) (lay : layout).
Variables (s off : Z).
Hypothesis Hhp : load_hmap m hp = Ok h.
Hypothesis Hwf : wf_table m t h lay.
Hypothesis Hs : 0 <= s < 2 ^ hmap_B h.

Local Abbreviation conf := (conf t hp h s off).
Local Abbreviation it0 := (it0 t hp h s off).
Local Abbreviation pick := (pick m t h lay).
Local Abbreviation syield := (syield m t hp h s off).
Local Abbreviation byield := (byield m t hp h s off).
Local Abbreviation cyield := (cyield m t hp h s off).
Local Abbreviation visit := (visit m t hp h lay s off).
Local Abbreviation scannable := (scannable m t hp h s off).
Local Abbreviation pending := (pending m t hp h lay s off).
Local Abbreviation weight := (weight m t h lay).
Local Abbreviation sched := (sched h s).
Local Abbreviation cursor := (cursor m t hp h s off).
Local Abbreviation icursor := (icursor m t hp h s off).
Local Abbreviation ipending := (ipending m t hp h lay s off).
Local Abbreviation iweight := (iweight m t h lay s).
Local Abbreviation same_fields := (same_fields t hp h s off).
Local Abbreviation post := (post m t hp h lay s off).
Local Abbreviation phase := (phase m t).
Local Abbreviation it_start := (it_start t hp h s off).
Local Abbreviation fuel_start := (fuel_start m t hp h lay s off).
Local Abbreviation between := (between m t hp h lay s off).

Lemma conf_it0 : conf it0.
Proof. repeat split. Qed.

Lemma scan_slot_it0 fuel it b cb i :
  conf it -> scan_slot fuel m t it b cb i = scan_slot fuel m t it0 b cb i.
Proof.
  intros (_ & Hh & _ & HB & _ & Ho). apply scan_slot_conf; assumption.
Qed.

Lemma clean_scannable b : bucket_clean m t b -> scannable noCheck b.
Proof.
  intros Hc i Hi.
  destruct (scan_slot_clean m t it0 b i) as (r & Hr & _ & Hk).
  { apply Hc. apply slot_index_range. }
  exists r. auto.
Qed.

Lemma half_facts :
  1 <= hmap_B h ->
  0 < 2 ^ (hmap_B h - 1) /\ 2 ^ hmap_B h = 2 ^ (hmap_B h - 1) * 2.
Proof.
  intros HB. split; [apply Z.pow_pos_nonneg; lia|].
  replace (hmap_B h) with ((hmap_B h - 1) + 1) at 1 by lia.
  rewrite Z.pow_add_r by lia. reflexivity.
Qed.

Lemma pick_spec x it :
  0 <= x < 2 ^ hmap_B h -> conf it ->
  exists b0 rest,
    select_bucket m t h it x = Ok (b0, snd (pick x)) /\
    fst (pick x) = b0 :: rest /\
    chain m t b0 (fst (pick x)) /\
    Forall (scannable (snd (pick x))) (fst (pick x)).
Proof.
  intros Hx (_ & Hh & Hb & HB & _ & Ho).
  pose proof (wf_B _ _ _ _ Hwf) as HBr.
  assert (Hnew : exists b0 rest,
            newc lay x = b0 :: rest /\ b0 = add (buckets it) (x * bucketsize t) /\
            chain m t b0 (newc lay x) /\
            Forall (scannable noCheck) (newc lay x)).
  { destruct (wf_new _ _ _ _ Hwf x Hx) as (Hne & Hch & Hcl).
    unfold newbucket in Hch. rewrite <- Hb in Hch.
    destruct (chain_nonempty _ _ _ _ Hch Hne) as (rest & b' & Heq & _).
    exists (add (buckets it) (x * bucketsize t)), rest. repeat split; auto.
    eapply Forall_impl; [exact Hcl|]. intros; apply clean_scannable; auto. }
  unfold select_bucket, pick.
  destruct (Z.eqb_spec (oldbuckets h) 0) as [Hold|Hold]; simpl.
  { destruct Hnew as (b0 & rest & Hn & -> & Hch & Hsc). eauto 10. }
  rewrite HB, Z.eqb_refl.
  destruct (wf_old _ _ _ _ Hwf Hold) as (HB1 & Holdj).
  destruct (half_facts HB1) as (Hhalf & Hdouble).
  rewrite (wrap8_small (hmap_B h - 1)) by lia.
  assert (Hx64 : 0 <= x < 2 ^ 64).
  { assert (2 ^ hmap_B h <= 2 ^ 64) by (apply Z.pow_le_mono_r; lia). lia. }
  rewrite land_mask64 by lia.
  pose proof (Z.mod_pos_bound x (2 ^ (hmap_B h - 1)) Hhalf) as Hj.
  destruct (Holdj _ Hj) as (ev & Hev & Hun).
  fold (oldbucket t h (x mod 2 ^ (hmap_B h - 1))). rewrite Hev. simpl.
  destruct ev; simpl.
  { destruct Hnew as (b0 & rest & Hn & -> & Hch & Hsc). eauto 10. }
  destruct (Hun eq_refl) as (Hne & Hch & Hcl & Hpl & _ & _).
  destruct (chain_nonempty _ _ _ _ Hch Hne) as (rest & b' & Heq & _).
  exists (oldbucket t h (x mod 2 ^ (hmap_B h - 1))), rest. repeat split; auto.
  rewrite Forall_forall in Hcl, Hpl. apply Forall_forall. intros bb Hbb i Hi.
    assert (Hxj : x = x mod 2 ^ (hmap_B h - 1) \/
                  x = x mod 2 ^ (hmap_B h - 1) + 2 ^ (hmap_B h - 1)).
    { pose proof (Z.div_mod x (2 ^ (hmap_B h - 1)) ltac:(lia)) as Hdm.
      assert (0 <= x / 2 ^ (hmap_B h - 1) < 2).
      { split; [apply Z.div_pos; lia|apply Z.div_lt_upper_bound; lia]. }
      assert (Hq : x / 2 ^ (hmap_B h - 1) = 0 \/ x / 2 ^ (hmap_B h - 1) = 1) by lia.
      destruct Hq as [Hq|Hq]; rewrite Hq in Hdm; lia. }
    destruct (scan_slot_split m t it0 h bb i (x mod 2 ^ (hmap_B h - 1)))
      as (r1 & r2 & H1 & H2 & _ & Hk); auto; try lia.
    { apply Hcl; [assumption|]. apply slot_index_range. }
    { apply Hpl; [assumption|]. apply slot_index_range. }
    destruct Hxj as [Hxj|Hxj].
    * exists r1. split; [|intros; eapply Hk; eauto].
      intros fuel. specialize (H1 fuel). rewrite <- Hxj in H1. exact H1.
    * exists r2. split; [|intros; eapply Hk; eauto].
      intros fuel. specialize (H2 fuel). rewrite <- Hxj in H2. exact H2.
Qed.

Lemma byield_cons b cb i :
  0 <= i < bucketCnt -> byield b cb i = syield b cb i ++ byield b cb (i + 1).
Proof.
  intros Hi. unfold byield. rewrite seqZ_cons by lia. simpl.
  do 3 f_equal; lia.
Qed.

Lemma byield_end b cb i : bucketCnt <= i -> byield b cb i = [].
Proof. intros Hi. unfold byield. rewrite seqZ_nil by lia. reflexivity. Qed.

Lemma scan_bucket_spec cb b it fuel :
  scannable cb b -> conf it ->
  forall k i, 0 <= i -> i + Z.of_nat k = bucketCnt ->
    (scan_bucket k fuel m t it b cb i = Ok None /\ byield b cb i = []) \/
    (exists i' kk v,
       scan_bucket k fuel m t it b cb i = Ok (Some (i', kk, v)) /\
       i <= i' < bucketCnt /\ kk <> 0 /\
       byield b cb i = (kk, v) :: byield b cb (i' + 1)).
Proof.
  intros Hsc Hconf. induction k as [|k IH]; intros i Hi Hik.
  - left. split; [reflexivity|apply byield_end; lia].
  - destruct (Hsc i ltac:(lia)) as (r & Hr & Hk).
    simpl scan_bucket. rewrite (scan_slot_it0 _ _ _ _ _ Hconf), Hr. simpl.
    rewrite byield_cons by lia. unfold syield. rewrite Hr.
    destruct r as [|kk v]; simpl.
    + assert (Hw : wrap8 (i + 1) = i + 1).
      { apply wrap8_small. change bucketCnt with 8 in Hik. lia. }
      rewrite Hw.
      destruct (IH (i + 1) ltac:(lia) ltac:(lia))
        as [(H1 & H2)|(i' & kk & v & H1 & H2 & H3 & H4)].
      * left. auto.
      * right. exists i', kk, v. repeat split; auto; lia.
    + right. exists i, kk, v. repeat split; eauto; lia.
Qed.

Lemma loop_unfold f it bkt b i cb :
  mapiternext_loop (S f) m t it bkt b i cb =
    if b =? 0 then
      st ← next_bucket m t it bkt;
      match st with
      | inl it' => Ok (it', [])
      | inr (it1, bkt1, b1, i1, cb1) => phase f it1 bkt1 b1 i1 cb1 [bkt]
      end
    else phase f it bkt b i cb [].
Proof. simpl. destruct (b =? 0); reflexivity. Qed.

Lemma pending_start cb cur todo :
  pending cb cur 0 todo = cyield cb cur ++ flat_map visit todo.
Proof. destruct cur; reflexivity. Qed.

Lemma phase_spec f :
  (forall it bkt b i cb cur,
     cursor it bkt b i cb cur ->
     (weight cur (sched bkt (wrapped it)) < f)%nat ->
     exists it' log,
       mapiternext_loop f m t it bkt b i cb = Ok (it', log) /\
       post it bkt i cb cur it' log) ->
  forall it bkt b i cb rest chosen,
    cursor it bkt b i cb (b :: rest) ->
    (weight rest (sched bkt (wrapped it)) < f)%nat ->
    exists it' log,
      phase f it bkt b i cb chosen = Ok (it', chosen ++ log) /\
      post it bkt i cb (b :: rest) it' log.
Proof.
  intros IH it bkt b i cb rest chosen Hcur Hw.
  destruct Hcur as (Hconf & Hbkt & Hwr & Hi & Hch & Hsc).
  specialize (Hi ltac:(discriminate)).
  apply chain_cons_inv in Hch as (_ & Hb0 & b' & Hov & Hrest).
  inversion Hsc as [|? ? Hscb Hscr]; subst.
  unfold phase.
  destruct (scan_bucket_spec cb b it f Hscb Hconf (Z.to_nat (bucketCnt - i)) i)
    as [(Hscan & Hy)|(i' & kk & v & Hscan & Hi' & Hkk & Hy)]; try lia;
    rewrite Hscan; simpl.
  - rewrite Hov. simpl.
    destruct (IH it bkt b' 0 cb rest) as (it' & log & Hloop & Hpost).
    { split; [assumption|]. repeat split; auto; try lia;
        intros; change bucketCnt with 8; lia. }
    { assumption. }
    rewrite Hloop. simpl. exists it', log. split; [reflexivity|].
    assert (Hp : pending cb (b :: rest) i (sched bkt (wrapped it)) =
                 pending cb rest 0 (sched bkt (wrapped it))).
    { rewrite pending_start. unfold pending. rewrite Hy. reflexivity. }
    destruct Hpost as [(cur' & H1 & H2 & H3 & H4 & H5)|(H1 & H2 & H3)].
    + left. exists cur'. rewrite Hp. do 4 (split; [assumption|]).
      unfold weight in *. simpl. lia.
    + right. rewrite Hp. auto.
  - exists (set_position it kk v bkt b (wrap8 (i' + 1)) cb), [].
    rewrite app_nil_r. split; [reflexivity|].
    left. exists (b :: rest).
    assert (Hw8 : wrap8 (i' + 1) = i' + 1).
    { apply wrap8_small. change bucketCnt with 8 in Hi'. lia. }
    repeat split; simpl; try apply Hconf; auto; try lia.
    + econstructor; eauto.
    + unfold ipending, pending. simpl. rewrite Hy, Hw8. reflexivity.
Qed.

Lemma bump_bucket_spec it x :
  conf it -> 0 <= x < 2 ^ hmap_B h ->
  bump_bucket it x =
    (if x + 1 =? 2 ^ hmap_B h then set_wrapped it true else it,
     fst (bump (2 ^ hmap_B h) x (wrapped it))) /\
  wrapped (fst (bump_bucket it x)) = snd (bump (2 ^ hmap_B h) x (wrapped it)).
Proof.
  intros (_ & _ & _ & HB & _) Hx.
  pose proof (wf_B _ _ _ _ Hwf) as HBr.
  assert (2 ^ hmap_B h <= 2 ^ 63) by (apply Z.pow_le_mono_r; lia).
  unfold bump_bucket, bump. rewrite HB, shl64_one_small by lia.
  rewrite wrap64_small by lia.
  destruct (x + 1 =? 2 ^ hmap_B h); split; reflexivity.
Qed.

Lemma loop_spec f :
  forall it bkt b i cb cur,
    cursor it bkt b i cb cur ->
    (weight cur (sched bkt (wrapped it)) < f)%nat ->
    exists it' log,
      mapiternext_loop f m t it bkt b i cb = Ok (it', log) /\
      post it bkt i cb cur it' log.
Proof.
  induction f as [|f IH]; intros it bkt b i cb cur Hcur Hw; [lia|].
  rewrite loop_unfold.
  destruct (Z.eqb_spec b 0) as [Hb|Hb].
  - (* the block under [if b == nil] *)
    subst b. destruct Hcur as (Hconf & Hbkt & Hwr & Hi & Hch & Hsc).
    apply chain_nil_inv in Hch. subst cur.
    pose proof Hconf as (Ht & Hh & Hbs & HB & Hst & Hoff).
    unfold next_bucket. rewrite Hst.
    destruct ((bkt =? s) && wrapped it) eqn:Hend; simpl.
    + (* the end of the iteration *)
      apply andb_true_iff in Hend as (He & Hwt).
      apply Z.eqb_eq in He. subst bkt.
      exists (set_key_value it 0 0), []. split; [reflexivity|].
      right. unfold sched. rewrite Hwt, schedule_end by lia.
      repeat split; simpl; auto.
    + rewrite Hh, Hhp. simpl.
      destruct (pick_spec bkt it Hbkt Hconf) as (b0 & rest & Hsel & Hpk & Hch & Hsc').
      rewrite Hsel. simpl.
      destruct (bump_bucket_spec it bkt Hconf Hbkt) as (Hbump & Hbw).
      destruct (schedule_step s (2 ^ hmap_B h) Hs bkt (wrapped it) Hbkt Hwr Hend)
        as (Hstep & Hr1 & Hr2 & Hr3).
      rewrite Hbump in *. simpl in Hbw.
      set (it1 := if bkt + 1 =? 2 ^ hmap_B h then set_wrapped it true else it) in *.
      set (bkt1 := fst (bump (2 ^ hmap_B h) bkt (wrapped it))) in *.
      assert (Hconf1 : conf it1).
      { unfold it1. destruct (bkt + 1 =? 2 ^ hmap_B h); [|assumption].
        repeat split; simpl; assumption. }
      destruct (phase_spec f IH it1 bkt1 b0 0 (snd (pick bkt)) rest [bkt])
        as (it' & log & Hph & Hpost).
      { rewrite <- Hpk. split; [exact Hconf1|]. split; [exact Hr1|].
        split; [rewrite Hbw; exact Hr2|].
        split; [intros; change bucketCnt with 8; lia|]. split; assumption. }
      { unfold sched in *. rewrite Hbw. rewrite Hstep in Hw.
        unfold weight in *. simpl in Hw. rewrite Hpk in Hw. simpl in Hw. lia. }
      cbn [mbind res_bind]. rewrite Hph.
      exists it', ([bkt] ++ log). split; [reflexivity|].
      assert (Hp : pending cb [] i (sched bkt (wrapped it)) =
                   pending (snd (pick bkt)) (b0 :: rest) 0 (sched bkt1 (wrapped it1))).
      { unfold sched. rewrite Hstep, Hbw. rewrite pending_start.
        unfold pending. simpl. unfold visit at 1. rewrite Hpk. reflexivity. }
      assert (Hsf : forall it'', same_fields it1 it'' -> same_fields it it'').
      { intros it'' (H1 & H2 & H3 & H4 & H5 & H6 & H7 & H8).
        unfold it1 in *. destruct (bkt + 1 =? 2 ^ hmap_B h); simpl in *;
          (split; [exact H1|]); repeat split; auto. }
      destruct Hpost as [(cur' & H1 & H2 & H3 & H4 & H5)|(H1 & H2 & H3)].
      * left. exists cur'. rewrite Hp. do 3 (split; [assumption|]). split.
        -- unfold sched at 1. rewrite Hstep. simpl. f_equal.
           unfold sched in H4. rewrite Hbw in H4. exact H4.
        -- unfold sched. rewrite Hstep. unfold sched in H5.
           rewrite Hbw in H5. unfold weight in *. simpl in *.
           rewrite Hpk. simpl. lia.
      * right. rewrite Hp. split; [|split; [assumption|]].
        -- apply Hsf; assumption.
        -- unfold sched at 1. rewrite Hstep. simpl. f_equal.
           unfold sched in H3. rewrite Hbw in H3. exact H3.
  - pose proof Hcur as (Hconf & Hbkt & Hwr & Hi & Hch & Hsc).
    destruct (chain_nonempty _ _ _ _ Hch) as (rest & b' & -> & _).
    { intros ->. inversion Hch; congruence. }
    destruct (phase_spec f IH it bkt b i cb rest [] Hcur)
      as (it' & log & Hph & Hpost).
    { unfold weight in *. simpl in Hw. lia. }
    rewrite Hph. exists it', log. split; [reflexivity|assumption].
Qed.

(** One call of [mapiternext] from a position of the traversal. *)
Lemma mapiternext_log_spec it cur fuel :
  icursor it cur -> (iweight it cur < fuel)%nat ->
  exists it' log cur',
    mapiternext_log fuel m it = Ok (it', log) /\
    icursor it' cur' /\ (iweight it' cur' <= iweight it cur)%nat /\
    ((key it' <> 0 /\
      ipending it cur = (key it', value it') :: ipending it' cur' /\
      sched (bucket it) (wrapped it) =
        log ++ sched (bucket it') (wrapped it')) \/
     (key it' = 0 /\ value it' = 0 /\ ipending it cur = [] /\
      ipending it' cur' = [] /\ sched (bucket it) (wrapped it) = log)).
Proof.
  intros Hcur Hw. pose proof Hcur as (Hconf & Hbkt & Hwr & Hi & Hch & Hsc).
  destruct (loop_spec fuel it _ _ _ _ cur Hcur Hw) as (it' & log & Hloop & Hpost).
  unfold mapiternext_log. destruct Hconf as (Ht & Hconf). rewrite Ht. simpl.
  rewrite Hloop. exists it', log.
  destruct Hpost as [(cur' & H1 & H2 & H3 & H4 & H5)|(Hsf & Hp & Hl)].
  - exists cur'. split; [reflexivity|]. split; [assumption|].
    split; [assumption|]. left. auto.
  - exists cur. destruct Hsf as (Hc' & Hb' & Hp' & Hi' & Hcb' & Hw' & Hk & Hv).
    assert (Hsch : sched (bucket it') (wrapped it') =
                   sched (bucket it) (wrapped it) \/
                   sched (bucket it') (wrapped it') = []).
    { rewrite Hb'. destruct (wrapped it) eqn:Hwi.
      - rewrite (Hw' eq_refl). left; reflexivity.
      - destruct (wrapped it'); [|left; reflexivity].
        unfold sched. apply schedule_wrapped; auto. }
    assert (Hnil : match cur with
                   | [] => []
                   | b :: rest => byield b (checkBucket it) (it_i it) ++
                                  cyield (checkBucket it) rest
                   end = []).
    { unfold pending in Hp. apply app_eq_nil in Hp. tauto. }
    split; [reflexivity|]. split; [|split].
    + unfold icursor. rewrite Hb', Hp', Hi', Hcb'.
      split; [assumption|]. split; [assumption|]. split; [|auto].
      intros Hwf'. apply Hwr. destruct (wrapped it); [|reflexivity].
      rewrite (Hw' eq_refl) in Hwf'. discriminate.
    + unfold iweight, weight. destruct Hsch as [-> | ->]; simpl; lia.
    + right. repeat split; auto.
      unfold ipending. rewrite Hcb', Hi'.
      destruct Hsch as [-> | ->]; [exact Hp|].
      unfold pending. rewrite Hnil. reflexivity.
Qed.

(** The entries that a [range] loop reads from a position on. *)
Lemma drain_spec fuel n :
  forall it cur,
    icursor it cur -> (iweight it cur < fuel)%nat ->
    (length (ipending it cur) < n)%nat -> key it <> 0 ->
    drain n fuel m it =
      Ok ((key it, value it) :: ipending it cur,
          sched (bucket it) (wrapped it)).
Proof.
  induction n as [|n IH]; intros it cur Hcur Hw Hn Hk; [lia|].
  simpl. rewrite neq_eqb by assumption.
  destruct (mapiternext_log_spec it cur fuel Hcur Hw)
    as (it' & log & cur' & Hnext & Hc & Hw' & Hcase).
  rewrite Hnext. simpl.
  destruct Hcase as [(Hk' & Hp & Hs')|(Hk' & _ & Hp & _ & Hs')].
  - rewrite (IH it' cur'); auto; try lia.
    + simpl. rewrite Hp, Hs'. reflexivity.
    + rewrite Hp in Hn. simpl in Hn. lia.
  - destruct n; simpl; rewrite Hk', Hp, Hs'; simpl; rewrite app_nil_r;
      reflexivity.
Qed.

(** ** The entries of a traversal, against the live entries *)

Lemma syield_clean b i :
  slot_clean m t b (slot_index it0 i) ->
  syield b noCheck i = slot_live m t b (slot_index it0 i).
Proof.
  intros Hc. destruct (scan_slot_clean m t it0 b i Hc) as (r & Hr & Hy & _).
  unfold syield. rewrite Hr. assumption.
Qed.

Lemma bucket_live_rotated b :
  flat_map (fun i => slot_live m t b (slot_index it0 i)) (seqZ 0 bucketCnt)
  ≡ₚ bucket_live m t b.
Proof.
  unfold bucket_live. rewrite <- (flat_map_map (slot_live m t b)).
  apply Permutation_flat_map. apply slot_rotation.
Qed.

Lemma byield_clean b :
  bucket_clean m t b -> byield b noCheck 0 ≡ₚ bucket_live m t b.
Proof.
  intros Hc. rewrite <- bucket_live_rotated. unfold byield.
  replace (bucketCnt - 0) with bucketCnt by reflexivity.
  apply flat_map_perm_ext. intros i Hi.
  rewrite syield_clean; [reflexivity|]. apply Hc, slot_index_range.
Qed.

Lemma cyield_clean bs :
  Forall (bucket_clean m t) bs -> cyield noCheck bs ≡ₚ chain_live m t bs.
Proof.
  intros Hc. unfold cyield, chain_live. apply flat_map_perm_ext.
  intros b Hb. apply byield_clean. rewrite Forall_forall in Hc. auto.
Qed.

Lemma bucket_live_empty b : bucket_empty m t b -> bucket_live m t b = [].
Proof.
  intros He. unfold bucket_live.
  assert (H : forall l, (forall j, j ∈ l -> 0 <= j < bucketCnt) ->
                        flat_map (slot_live m t b) l = []).
  { induction l as [|j l IH]; intros Hl; simpl; [reflexivity|].
    rewrite IH by (intros; apply Hl; right; assumption).
    unfold slot_live. rewrite (He j) by (apply Hl; left).
    destruct (deref_if _ _ _); [destruct (deref_if _ _ _)|..]; reflexivity. }
  apply H. intros j Hj. apply elem_of_seqZ in Hj. lia.
Qed.

Lemma chain_live_empty bs :
  Forall (bucket_empty m t) bs -> chain_live m t bs = [].
Proof.
  induction 1 as [|b bs Hb _ IH]; simpl; [reflexivity|].
  unfold chain_live in *. simpl. rewrite IH, bucket_live_empty by assumption.
  reflexivity.
Qed.

(** The two visits of an old bucket that is not evacuated share out its
    entries. *)
Lemma cyield_split j bs :
  1 <= hmap_B h -> 0 <= j < 2 ^ (hmap_B h - 1) ->
  Forall (bucket_clean m t) bs -> Forall (bucket_placed m t h j) bs ->
  cyield j bs ++ cyield (j + 2 ^ (hmap_B h - 1)) bs ≡ₚ chain_live m t bs.
Proof.
  intros HB1 Hj Hcl Hpl. pose proof (wf_B _ _ _ _ Hwf) as HBr.
  unfold cyield, chain_live. rewrite flat_map_app_perm.
  apply flat_map_perm_ext. intros b Hb.
  rewrite Forall_forall in Hcl, Hpl.
  rewrite <- bucket_live_rotated. unfold byield. rewrite flat_map_app_perm.
  replace (bucketCnt - 0) with bucketCnt by reflexivity.
  apply flat_map_perm_ext. intros i Hi.
  destruct (scan_slot_split m t it0 h b i j)
    as (r1 & r2 & H1 & H2 & Hcase & _); auto; try lia.
  { apply Hcl; [assumption|apply slot_index_range]. }
  { apply Hpl; [assumption|apply slot_index_range]. }
  unfold syield. rewrite H1, H2.
  destruct Hcase as [(<- & ->)|(-> & <-)]; simpl; rewrite ?app_nil_r;
    reflexivity.
Qed.

Lemma mod_half_lo j :
  0 <= j < 2 ^ (hmap_B h - 1) -> j mod 2 ^ (hmap_B h - 1) = j.
Proof. intros. apply Z.mod_small. assumption. Qed.

Lemma mod_half_hi j :
  0 <= j < 2 ^ (hmap_B h - 1) ->
  (j + 2 ^ (hmap_B h - 1)) mod 2 ^ (hmap_B h - 1) = j.
Proof.
  intros Hj. replace (j + 2 ^ (hmap_B h - 1))
    with (j + 1 * 2 ^ (hmap_B h - 1)) by lia.
  rewrite Z.mod_add by lia. apply Z.mod_small. assumption.
Qed.

Lemma visit_all_live :
  flat_map visit (seqZ 0 (2 ^ hmap_B h)) ≡ₚ live_entries m t h lay.
Proof.
  pose proof (wf_B _ _ _ _ Hwf) as HBr. unfold live_entries.
  destruct (Z.eqb_spec (oldbuckets h) 0) as [Hold|Hold].
  - rewrite app_nil_r. apply flat_map_perm_ext. intros x Hx.
    apply elem_of_seqZ in Hx.
    unfold visit, pick. rewrite Hold. simpl. apply cyield_clean.
    apply (wf_new _ _ _ _ Hwf). lia.
  - destruct (wf_old _ _ _ _ Hwf Hold) as (HB1 & Holdj).
    destruct (half_facts HB1) as (Hhalf & Hdouble).
    set (half := 2 ^ (hmap_B h - 1)) in *.
    assert (Hsplit : forall f : Z -> list (Z * Z),
              flat_map f (seqZ 0 (2 ^ hmap_B h)) ≡ₚ
              flat_map (fun j => f j ++ f (j + half)) (seqZ 0 half)).
    { intros f. rewrite Hdouble. replace (half * 2) with (half + half) by lia.
      rewrite seqZ_app by lia. rewrite flat_map_app.
      rewrite <- flat_map_app_perm. apply Permutation_app_head.
      rewrite flat_map_seqZ_shift. reflexivity. }
    rewrite (Hsplit visit), (Hsplit (fun i => chain_live m t (newc lay i))).
    rewrite flat_map_app_perm.
    apply flat_map_perm_ext. intros j Hj. apply elem_of_seqZ in Hj.
    assert (Hj' : 0 <= j < half) by lia.
    destruct (Holdj j Hj') as (ev & Hev & Hun).
    unfold visit, pick. rewrite (neq_eqb _ _ Hold). simpl.
    unfold half in *. rewrite (mod_half_lo j Hj'), (mod_half_hi j Hj').
    rewrite Hev. destruct ev; simpl.
    + rewrite app_nil_r. apply Permutation_app; apply cyield_clean;
        apply (wf_new _ _ _ _ Hwf); lia.
    + destruct (Hun eq_refl) as (_ & _ & Hcl & Hpl & He1 & He2).
      rewrite (chain_live_empty _ He1), (chain_live_empty _ He2). simpl.
      apply cyield_split; auto.
Qed.

Lemma sched_start_perm : sched s false ≡ₚ seqZ 0 (2 ^ hmap_B h).
Proof. unfold sched, schedule. simpl. apply seqZ_rotate. lia. Qed.

Lemma walk_live : flat_map visit (sched s false) ≡ₚ live_entries m t h lay.
Proof.
  rewrite <- visit_all_live. apply Permutation_flat_map, sched_start_perm.
Qed.

(** ** From the first position *)

Lemma it_start_cursor i0 cb0 : icursor (it_start i0 cb0) [].
Proof.
  unfold icursor, cursor. simpl. split; [repeat split|].
  split; [exact Hs|]. split; [lia|]. split; [congruence|].
  split; constructor.
Qed.

Lemma it_start_pending i0 cb0 :
  ipending (it_start i0 cb0) [] = flat_map visit (sched s false).
Proof. reflexivity. Qed.

Lemma walk_from_start fuel i0 cb0 :
  (fuel_start <= fuel)%nat ->
  ('(it', log) ← mapiternext_log fuel m (it_start i0 cb0);
   '(ys, logs) ← drain fuel fuel m it';
   Ok (ys, log ++ logs)) =
  Ok (flat_map visit (sched s false), sched s false).
Proof.
  intros Hf. unfold fuel_start in Hf.
  destruct (mapiternext_log_spec (it_start i0 cb0) [] fuel (it_start_cursor _ _))
    as (it' & log & cur' & Hnext & Hc & Hw & Hcase).
  { unfold iweight. simpl. lia. }
  rewrite Hnext. simpl. rewrite it_start_pending in Hcase.
  change (sched (bucket (it_start i0 cb0)) (wrapped (it_start i0 cb0)))
    with (sched s false) in Hcase.
  unfold iweight in Hw at 2. simpl in Hw.
  destruct Hcase as [(Hk & Hp & Hl)|(Hk & _ & Hp & _ & Hl)].
  - rewrite (drain_spec fuel fuel it' cur'); auto; try lia.
    + simpl. rewrite Hp, Hl. reflexivity.
    + rewrite Hp in Hf. simpl in Hf. lia.
  - destruct fuel; simpl; rewrite Hk; simpl; rewrite Hp, Hl, app_nil_r;
      reflexivity.
Qed.

Lemma between_next fuel it :
  between fuel it ->
  exists it', mapiternext fuel m it = Ok it' /\ between fuel it' /\
              (key it = 0 -> key it' = 0 /\ value it' = 0).
Proof.
  intros (cur & Hc & Hw & Hk).
  destruct (mapiternext_log_spec it cur fuel Hc Hw)
    as (it' & log & cur' & Hnext & Hc' & Hw' & Hcase).
  exists it'. unfold mapiternext. rewrite Hnext. simpl.
  split; [reflexivity|]. split.
  - exists cur'. split; [assumption|]. split; [lia|].
    destruct Hcase as [(Hk' & _)|(_ & _ & _ & Hp & _)]; [contradiction|auto].
  - intros Hk0. specialize (Hk Hk0).
    destruct Hcase as [(_ & Hp & _)|(? & ? & _)]; [|auto].
    rewrite Hp in Hk. discriminate.
Qed.

Lemma between_first fuel i0 cb0 :
  (fuel_start <= fuel)%nat ->
  exists it1, mapiternext fuel m (it_start i0 cb0) = Ok it1 /\
              between fuel it1.
Proof.
  intros Hf. unfold fuel_start in Hf.
  destruct (mapiternext_log_spec (it_start i0 cb0) [] fuel (it_start_cursor _ _))
    as (it' & log & cur' & Hnext & Hc & Hw & Hcase).
  { unfold iweight. simpl. lia. }
  unfold iweight in Hw at 2. simpl in Hw.
  exists it'. unfold mapiternext. rewrite Hnext. split; [reflexivity|].
  exists cur'. split; [assumption|]. split; [lia|].
  destruct Hcase as [(Hk' & _)|(_ & _ & _ & Hp & _)]; [contradiction|auto].
Qed.

Lemma between_advances fuel k :
  forall it, between fuel it ->
    exists it', advances k fuel m it = Ok it' /\ between fuel it'.
Proof.
  induction k as [|k IH]; intros it Hb; simpl.
  - exists it. auto.
  - destruct (between_next fuel it Hb) as (it' & Hn & Hb' & _).
    rewrite Hn. simpl. apply IH. assumption.
Qed.

End Walk.

(** ** Whole traversals *)

Section Traversal.
Context {K : Type}.
Implicit Types (m : mem K) (t : maptype K) (it : hiter K) (h : hmap).

Lemma iter_rand_range h r1 r2 : 0 <= iter_rand h r1 r2 < 2 ^ 64.
Proof.
  unfold iter_rand. destruct (hmap_B h >? 31 - bucketCntBits).
  - apply wrap64_range.
  - pose proof (wrap32_range r1). lia.
Qed.

Lemma start_of_range h r1 r2 :
  0 <= hmap_B h -> 0 <= start_of h r1 r2 < 2 ^ hmap_B h.
Proof.
  intros HB. unfold start_of.
  rewrite land_mask64 by (auto using iter_rand_range).
  apply Z.mod_pos_bound. apply Z.pow_pos_nonneg; lia.
Qed.

Lemma mapiterinit_log_start fuel m t hp h it r1 r2 :
  hp <> 0 -> load_hmap m hp = Ok h -> count h <> 0 ->
  mapiterinit_log fuel m t hp it r1 r2 =
    mapiternext_log fuel m
      (it_start t hp h (start_of h r1 r2) (offset_of h r1 r2) (it_i it)
         (checkBucket it)).
Proof.
  intros Hhp Hh Hc. unfold mapiterinit_log.
  rewrite (neq_eqb hp 0) by assumption. rewrite Hh. simpl.
  rewrite (neq_eqb (count h) 0) by assumption. reflexivity.
Qed.

Lemma mapiterinit_log_empty fuel m t hp h it r1 r2 :
  hp <> 0 -> load_hmap m hp = Ok h -> count h = 0 ->
  exists it', mapiterinit_log fuel m t hp it r1 r2 = Ok (it', []) /\
              key it' = 0 /\ value it' = 0.
Proof.
  intros Hhp Hh Hc. unfold mapiterinit_log.
  rewrite (neq_eqb hp 0) by assumption. rewrite Hh. simpl.
  rewrite Hc. simpl. eexists. split; [reflexivity|]. split; reflexivity.
Qed.

(** C1.  On a table at rest (no write during the traversal), grown or in
    the middle of a growth, a traversal ([mapiterinit], then [mapiternext]
    until [it.key] is [nil]) returns with enough fuel, and the entries it
    yields are the live entries of the table, each once: the two lists are
    permutations of each other, and no key pointer is yielded twice when
    the live entries have distinct key pointers. *)
Theorem traverse_complete m t hp h lay it r1 r2 :
  hp <> 0 -> load_hmap m hp = Ok h -> wf_table m t h lay ->
  exists fuel0 ys log,
    (forall fuel, (fuel0 <= fuel)%nat ->
       traverse fuel m t hp it r1 r2 = Ok (ys, log)) /\
    ys ≡ₚ live_entries m t h lay /\
    (NoDup (map fst (live_entries m t h lay)) -> NoDup (map fst ys)).
Proof.
  intros Hhp Hh Hwf. pose proof (wf_B _ _ _ _ Hwf) as HB.
  destruct (Z.eq_dec (count h) 0) as [Hc|Hc].
  - assert (Hlive : live_entries m t h lay = []).
    { pose proof (wf_count _ _ _ _ Hwf) as Hn. rewrite Hc in Hn.
      destruct (live_entries m t h lay); [reflexivity|simpl in Hn; lia]. }
    exists O, [], []. split; [|rewrite Hlive; split; [reflexivity|auto]].
    intros fuel _. unfold traverse.
    destruct (mapiterinit_log_empty fuel m t hp h it r1 r2 Hhp Hh Hc)
      as (it' & -> & Hk & _).
    simpl. destruct fuel; simpl; rewrite Hk; reflexivity.
  - pose proof (start_of_range h r1 r2 ltac:(lia)) as Hs.
    exists (fuel_start m t hp h lay (start_of h r1 r2) (offset_of h r1 r2)).
    eexists _, _. split; [|split].
    + intros fuel Hf. unfold traverse.
      rewrite (mapiterinit_log_start fuel m t hp h) by assumption.
      apply (walk_from_start m t hp h lay _ _ Hh Hwf Hs). exact Hf.
    + apply (walk_live m t hp h lay _ _ Hh Hwf Hs).
    + intros Hnd.
      rewrite (Permutation_map fst (walk_live m t hp h lay _ _ Hh Hwf Hs)).
      exact Hnd.
Qed.

(** C8.  On a table at rest that is not empty: with enough fuel
    [mapiterinit] and every later call of [mapiternext] return, and once
    [it.key] is [nil] a further call leaves it [nil]; the bucket indices
    chosen in a traversal are the indices below [2^B], each once; the
    bucket index goes up by one and wraps at [2^B], setting [it.wrapped];
    and at [startBucket] with [it.wrapped] set the call returns with
    [it.key] and [it.value] [nil]. *)
Theorem advance_terminates m t hp h lay it r1 r2 :
  hp <> 0 -> load_hmap m hp = Ok h -> wf_table m t h lay -> count h <> 0 ->
  (exists fuel0, forall fuel, (fuel0 <= fuel)%nat -> forall k,
     exists it_k it_k1,
       (it1 ← mapiterinit fuel m t hp it r1 r2; advances k fuel m it1)
         = Ok it_k /\
       mapiternext fuel m it_k = Ok it_k1 /\
       (key it_k = 0 -> key it_k1 = 0 /\ value it_k1 = 0)) /\
  (exists fuel0 ys log,
     (forall fuel, (fuel0 <= fuel)%nat ->
        traverse fuel m t hp it r1 r2 = Ok (ys, log)) /\
     NoDup log /\ log ≡ₚ seqZ 0 (2 ^ hmap_B h)) /\
  (forall it' bkt,
     B it' = hmap_B h -> 0 <= bkt < 2 ^ hmap_B h ->
     bump_bucket it' bkt =
       if bkt + 1 =? 2 ^ hmap_B h then (set_wrapped it' true, 0)
       else (it', bkt + 1)) /\
  (forall it' fuel i cb,
     wrapped it' = true ->
     mapiternext_loop (S fuel) m t it' (startBucket it') 0 i cb =
       Ok (set_key_value it' 0 0, [])).
Proof.
  intros Hhp Hh Hwf Hc. pose proof (wf_B _ _ _ _ Hwf) as HB.
  pose proof (start_of_range h r1 r2 ltac:(lia)) as Hs.
  set (s := start_of h r1 r2) in *. set (off := offset_of h r1 r2).
  split; [|split; [|split]].
  - exists (fuel_start m t hp h lay s off). intros fuel Hf k.
    destruct (between_first m t hp h lay s off Hh Hwf Hs fuel (it_i it)
                (checkBucket it) Hf) as (it1 & H1 & Hb1).
    assert (Hinit : mapiterinit fuel m t hp it r1 r2 = Ok it1).
    { unfold mapiterinit. rewrite (mapiterinit_log_start fuel m t hp h)
        by assumption. exact H1. }
    rewrite Hinit. simpl.
    destruct (between_advances m t hp h lay s off Hh Hwf Hs fuel k it1 Hb1)
      as (it_k & Hk & Hbk).
    destruct (between_next m t hp h lay s off Hh Hwf Hs fuel it_k Hbk)
      as (it_k1 & Hn & _ & Hz).
    exists it_k, it_k1. auto.
  - exists (fuel_start m t hp h lay s off). eexists _, _. split; [|split].
    + intros fuel Hf. unfold traverse.
      rewrite (mapiterinit_log_start fuel m t hp h) by assumption.
      apply (walk_from_start m t hp h lay _ _ Hh Hwf Hs). exact Hf.
    + rewrite (sched_start_perm h s Hs). apply NoDup_seqZ.
    + apply sched_start_perm. exact Hs.
  - intros it' bkt HB' Hbkt.
    assert (2 ^ hmap_B h <= 2 ^ 63) by (apply Z.pow_le_mono_r; lia).
    unfold bump_bucket. rewrite HB', shl64_one_small by lia.
    rewrite wrap64_small by lia. reflexivity.
  - intros it' fuel i cb Hw. rewrite loop_unfold. simpl.
    unfold next_bucket. rewrite Z.eqb_refl, Hw. reflexivity.
Qed.

End Traversal.

(** ** Lookup and creation *)

Section Lookup.
Context {K : Type}.
Implicit Types (m : mem K) (t : maptype K) (it : hiter K) (h : hmap).

Lemma tophash_of_range hash : minTopHash <= tophash_of hash < 2 ^ 8.
Proof.
  unfold tophash_of, minTopHash.
  pose proof (wrap8_range (shr64 hash (ptrSize * 8 - 8))) as Hr.
  destruct (Z.ltb_spec (wrap8 (shr64 hash (ptrSize * 8 - 8))) 4).
  - rewrite wrap8_small; lia.
  - lia.
Qed.

Lemma access_bucket_miss m t kc top b :
  forall n i,
    (forall i', i <= i' < i + Z.of_nat n -> slot_match m t kc top b i' = Ok false) ->
    access_bucket n m t kc top b i = Ok None.
Proof.
  induction n as [|n IH]; intros i Hmiss; [reflexivity|].
  simpl access_bucket. pose proof (Hmiss i ltac:(lia)) as Hi.
  unfold slot_match in Hi.
  destruct (tophash m b i) as [th| |]; simpl in *; try discriminate.
  destruct (negb (th =? top)).
  - apply IH. intros; apply Hmiss; lia.
  - destruct (deref_if m (indirectkey t) (keyslot t b i)) as [k| |];
      simpl in *; try discriminate.
    destruct (load_key m k) as [kc'| |]; simpl in *; try discriminate.
    injection Hi as ->. apply IH. intros; apply Hmiss; lia.
Qed.

Lemma access_bucket_hit m t kc top b i k v :
  slot_match m t kc top b i = Ok true ->
  deref_if m (indirectkey t) (keyslot t b i) = Ok k ->
  deref_if m (indirectvalue t) (valueslot t b i) = Ok v ->
  forall n i0,
    i0 <= i < i0 + Z.of_nat n ->
    (forall i', i0 <= i' < i -> slot_match m t kc top b i' = Ok false) ->
    access_bucket n m t kc top b i0 = Ok (Some (k, v)).
Proof.
  intros Hhit Hk Hv. induction n as [|n IH]; intros i0 Hi Hmiss; [lia|].
  simpl access_bucket.
  destruct (Z.eq_dec i0 i) as [->|Hne].
  - unfold slot_match in Hhit.
    destruct (tophash m b i) as [th| |]; simpl in *; try discriminate.
    destruct (negb (th =? top)); [discriminate|].
    rewrite Hk in *. simpl in *.
    destruct (load_key m k) as [kc'| |]; simpl in *; try discriminate.
    injection Hhit as ->. rewrite Hv. reflexivity.
  - pose proof (Hmiss i0 ltac:(lia)) as Hi0. unfold slot_match in Hi0.
    destruct (tophash m b i0) as [th| |]; simpl in *; try discriminate.
    destruct (negb (th =? top)).
    + apply IH; [lia|]. intros; apply Hmiss; lia.
    + destruct (deref_if m (indirectkey t) (keyslot t b i0)) as [k0| |];
        simpl in *; try discriminate.
      destruct (load_key m k0) as [kc'| |]; simpl in *; try discriminate.
      injection Hi0 as ->. apply IH; [lia|]. intros; apply Hmiss; lia.
Qed.

Lemma access_chain_unfold fuel m t kc top b :
  access_chain (S fuel) m t kc top b =
    r ← access_bucket (Z.to_nat bucketCnt) m t kc top b 0;
    match r with
    | Some kv => Ok kv
    | None =>
        b' ← overflow m t b;
        if b' =? 0 then Ok (0, 0) else access_chain fuel m t kc top b'
    end.
Proof. reflexivity. Qed.

(** The walk of [mapaccessK] along a chain stops at the first slot that
    matches. *)
Lemma access_chain_finds m t kc top b i k v post :
  0 <= i < bucketCnt ->
  slot_match m t kc top b i = Ok true ->
  (forall i', 0 <= i' < i -> slot_match m t kc top b i' = Ok false) ->
  deref_if m (indirectkey t) (keyslot t b i) = Ok k ->
  deref_if m (indirectvalue t) (valueslot t b i) = Ok v ->
  forall pre b0,
    chain m t b0 (pre ++ b :: post) ->
    Forall (fun b' => forall i', 0 <= i' < bucketCnt ->
                        slot_match m t kc top b' i' = Ok false) pre ->
    forall fuel, (length pre < fuel)%nat ->
      access_chain fuel m t kc top b0 = Ok (k, v).
Proof.
  intros Hi Hhit Hbefore Hk Hv.
  induction pre as [|p pre IH]; intros b0 Hch Hpre fuel Hf;
    (destruct fuel as [|fuel]; [simpl in Hf; lia|]);
    rewrite access_chain_unfold.
  - apply chain_cons_inv in Hch as (-> & _).
    rewrite (access_bucket_hit m t kc top b i k v Hhit Hk Hv); [reflexivity| |].
    + change (Z.of_nat (Z.to_nat bucketCnt)) with 8.
      change bucketCnt with 8 in Hi. lia.
    + intros; apply Hbefore; lia.
  - simpl in Hch. apply chain_cons_inv in Hch as (-> & _ & b' & Hov & Hrest).
    inversion Hpre as [|? ? Hp Hpre']; subst.
    rewrite access_bucket_miss.
    2:{ intros i' Hi'. apply Hp.
        change (Z.of_nat (Z.to_nat bucketCnt)) with bucketCnt in Hi'. lia. }
    simpl. rewrite Hov. simpl.
    assert (Hb' : b' <> 0).
    { destruct pre; simpl in Hrest; apply chain_cons_inv in Hrest; tauto. }
    rewrite (neq_eqb b' 0) by assumption.
    apply IH; auto. simpl in Hf. lia.
Qed.

(** The tag is the top byte of the hash, raised by [minTopHash] when it
    is below it. *)
Lemma tophash_of_high_byte hash :
  0 <= hash < 2 ^ 64 ->
  let hi := hash / 2 ^ 56 in
  0 <= hi < 2 ^ 8 /\
  tophash_of hash = (if hi <? minTopHash then hi + minTopHash else hi).
Proof.
  intros Hh hi.
  assert (Hhi : 0 <= hi < 2 ^ 8).
  { unfold hi. split; [apply Z.div_pos; lia|].
    apply Z.div_lt_upper_bound; [lia|].
    change (2 ^ 56 * 2 ^ 8) with (2 ^ 64). lia. }
  split; [exact Hhi|].
  unfold tophash_of, shr64, ptrSize. change (8 * 8 - 8) with 56.
  rewrite Z.shiftr_div_pow2 by lia. fold hi.
  rewrite (wrap8_small hi) by exact Hhi.
  destruct (Z.ltb_spec hi minTopHash) as [Hlt|Hge]; [|reflexivity].
  apply wrap8_small. unfold minTopHash in *. lia.
Qed.

(** C7.  The tag of a hash is at least [minTopHash], so it is none of the
    four reserved marks; the tag that a lookup compares with the tophash
    bytes is made of the top byte [hash / 2^56] of the 64-bit hash of the
    key: that byte, raised by [minTopHash] when it is below it; and while
    the table grows, a lookup whose key hashes to an old bucket that is
    not evacuated walks the chain of that old bucket and returns the first
    slot of it that holds the key. *)
Theorem mapaccessK_tag_and_old_table :
  (forall hash,
     minTopHash <= tophash_of hash < 2 ^ 8 /\
     tophash_of hash <> empty /\ tophash_of hash <> evacuatedEmpty /\
     tophash_of hash <> evacuatedX /\ tophash_of hash <> evacuatedY) /\
  (forall t (kc : K) seed,
     let hash := hash_of t kc seed in
     let hi := hash / 2 ^ 56 in
     0 <= hash < 2 ^ 64 /\ 0 <= hi < 2 ^ 8 /\
     tophash_of hash = (if hi <? minTopHash then hi + minTopHash else hi)) /\
  (forall m t hp h key kc pre b post i k v,
     hp <> 0 -> load_hmap m hp = Ok h -> count h <> 0 ->
     load_key m key = Ok kc ->
     oldbuckets h <> 0 -> 1 <= hmap_B h < 64 ->
     let hash := hash_of t kc (hash0 h) in
     let top := tophash_of hash in
     let oldb := oldbucket t h (hash mod 2 ^ (hmap_B h - 1)) in
     evacuated m oldb = Ok false ->
     chain m t oldb (pre ++ b :: post) ->
     Forall (fun b' => forall i', 0 <= i' < bucketCnt ->
                         slot_match m t kc top b' i' = Ok false) pre ->
     0 <= i < bucketCnt ->
     (forall i', 0 <= i' < i -> slot_match m t kc top b i' = Ok false) ->
     slot_match m t kc top b i = Ok true ->
     deref_if m (indirectkey t) (keyslot t b i) = Ok k ->
     deref_if m (indirectvalue t) (valueslot t b i) = Ok v ->
     forall fuel, (length pre < fuel)%nat ->
       mapaccessK fuel m t hp key = Ok (k, v)).
Proof.
  split; [|split].
  - intros hash. pose proof (tophash_of_range hash) as Hr.
    unfold minTopHash, empty, evacuatedEmpty, evacuatedX, evacuatedY in *.
    lia.
  - intros t kc seed hash hi.
    pose proof (hash_of_range t kc seed) as Hr. fold hash in Hr.
    split; [exact Hr|]. exact (tophash_of_high_byte hash Hr).
  - intros m t hp h key kc pre b post i k v Hhp Hh Hc Hkc Hold HB hash top
      oldb Hev Hch Hpre Hi Hbefore Hhit Hk Hv fuel Hf.
    unfold mapaccessK. rewrite (neq_eqb hp 0) by assumption.
    rewrite Hh. simpl. rewrite (neq_eqb (count h) 0) by assumption.
    rewrite Hkc. simpl. fold hash. fold top.
    assert (Hstart : access_start m t h hash = Ok oldb).
    { unfold access_start. rewrite (neq_eqb _ _ Hold). simpl.
      rewrite mask64_ones by lia. unfold shr64.
      assert (Hones : Z.shiftr (Z.ones (hmap_B h)) 1 = Z.ones (hmap_B h - 1)).
      { rewrite Z.shiftr_div_pow2 by lia. rewrite !Z.ones_equiv.
        replace (hmap_B h) with ((hmap_B h - 1) + 1) at 1 by lia.
        rewrite Z.pow_add_r by lia. change (2 ^ 1) with 2.
        assert (0 < 2 ^ (hmap_B h - 1)) by (apply Z.pow_pos_nonneg; lia).
        symmetry. apply Z.div_unique with (r := 1); lia. }
      rewrite Hones. rewrite Z.land_ones by lia. fold (oldbucket t h (hash mod 2 ^ (hmap_B h - 1))).
      fold oldb. rewrite Hev. reflexivity. }
    rewrite Hstart. simpl.
    eapply access_chain_finds; eauto.
Qed.

End Lookup.

Section Init.
Context {K : Type}.
Implicit Types (m : mem K) (t : maptype K) (it : hiter K) (h : hmap).

(** C5.  On a [nil] table or a table whose [count] is zero, [mapiterinit]
    returns an iterator whose key and value are [nil], and the traversal
    yields nothing.  Otherwise it draws [r] (32 bits, or 63 for tables of
    more than [2^28] buckets), and returns what one call of [mapiternext]
    makes of the iterator with [startBucket = r mod 2^B],
    [offset = (r >> B) mod 8], the bucket array and the [B] of the table,
    [bucket = startBucket], [wrapped = false] and [bptr = nil]. *)
Theorem mapiterinit_spec m t hp it r1 r2 fuel :
  (hp = 0 \/ (exists h, load_hmap m hp = Ok h /\ count h = 0) ->
   exists it',
     mapiterinit fuel m t hp it r1 r2 = Ok it' /\
     key it' = 0 /\ value it' = 0 /\
     traverse fuel m t hp it r1 r2 = Ok ([], [])) /\
  (forall h,
     hp <> 0 -> load_hmap m hp = Ok h -> count h <> 0 ->
     0 <= hmap_B h < 2 ^ 8 ->
     let r := iter_rand h r1 r2 in
     0 <= r < 2 ^ 64 /\
     (r = wrap32 r1 \/ r = wrap32 r1 + wrap32 r2 * 2 ^ 31) /\
     mapiterinit fuel m t hp it r1 r2 =
       mapiternext fuel m
         (Hiter 0 0 (Some t) hp (hmap_buckets h) 0 0 0
            (r mod 2 ^ hmap_B h) (Z.shiftr r (hmap_B h) mod bucketCnt) false
            (hmap_B h) (it_i it) (r mod 2 ^ hmap_B h) (checkBucket it))).
Proof.
  split.
  - intros Hempty.
    assert (Hlog : exists it', mapiterinit_log fuel m t hp it r1 r2 = Ok (it', [])
                               /\ key it' = 0 /\ value it' = 0).
    { unfold mapiterinit_log. destruct (Z.eqb_spec hp 0) as [|Hne].
      - eexists. split; [reflexivity|]. split; reflexivity.
      - destruct Hempty as [?|(h & Hh & Hc)]; [contradiction|].
        rewrite Hh. simpl. rewrite Hc. simpl.
        eexists. split; [reflexivity|]. split; reflexivity. }
    destruct Hlog as (it' & Hl & Hk & Hv). exists it'.
    unfold mapiterinit, traverse. rewrite Hl. simpl.
    repeat split; auto. destruct fuel; simpl; rewrite Hk; reflexivity.
  - intros h Hhp Hh Hc HB r.
    pose proof (iter_rand_range h r1 r2) as Hr. fold r in Hr.
    split; [exact Hr|]. split.
    + unfold r, iter_rand. destruct (hmap_B h >? 31 - bucketCntBits); [|auto].
      right. pose proof (wrap32_range r1). pose proof (wrap32_range r2).
      unfold shl64. rewrite Z.shiftl_mul_pow2 by lia.
      change (2 ^ 32) with 4294967296 in *. change (2 ^ 31) with 2147483648.
      rewrite (wrap64_small (wrap32 r2 * 2147483648))
        by (change (2 ^ 64) with 18446744073709551616; lia).
      apply wrap64_small. change (2 ^ 64) with 18446744073709551616. lia.
    + unfold mapiterinit. rewrite (mapiterinit_log_start fuel m t hp h)
        by assumption.
      unfold it_start, start_of, offset_of. fold r.
      rewrite land_mask64 by lia.
      change (bucketCnt - 1) with (Z.ones 3). rewrite Z.land_ones by lia.
      change (2 ^ 3) with bucketCnt. unfold shr64.
      rewrite wrap8_small.
      2:{ pose proof (Z.mod_pos_bound (Z.shiftr r (hmap_B h)) bucketCnt eq_refl).
          change bucketCnt with 8 in *. lia. }
      reflexivity.
Qed.

End Init.

(** ** The table in the middle of a growth *)

Import Examples.

Ltac slot_cases j Hj :=
  change bucketCnt with 8 in Hj;
  assert (j = 0 \/ j = 1 \/ j = 2 \/ j = 3 \/ j = 4 \/ j = 5 \/ j = 6 \/ j = 7)
    as [-> |[-> |[-> |[-> |[-> |[-> |[-> | ->]]]]]]] by lia.

Ltac solve_clean :=
  let j := fresh "j" in let Hj := fresh "Hj" in
  intros j Hj; slot_cases j Hj;
  (eexists; split; [vm_compute; reflexivity|]);
  first [ left; reflexivity
        | right; split; [vm_compute; discriminate|];
          eexists _, _; split; [vm_compute; reflexivity|];
          split; [vm_compute; reflexivity|]; discriminate ].

Ltac solve_empty :=
  let j := fresh "j" in let Hj := fresh "Hj" in
  intros j Hj; slot_cases j Hj; vm_compute; reflexivity.

Lemma chain_single (m : mem Z) t b :
  b <> 0 -> overflow m t b = Ok 0 -> chain m t b [b].
Proof. intros. econstructor; eauto. constructor. Qed.

Lemma placed_P b :
  b = 3144 \/ b = 4000 -> bucket_placed memP tZ hP 1 b.
Proof.
  intros Hb jj Hj th k2 Hth Hmin Hk.
  assert (Hcase : (tophash memP b jj, deref_if memP (indirectkey tZ) (keyslot tZ b jj)) = (Ok th, Ok k2))
    by (rewrite Hth, Hk; reflexivity).
  clear Hth Hk.
  destruct Hb as [-> | ->]; slot_cases jj Hj; vm_compute in Hcase;
    injection Hcase as <- <-; vm_compute in Hmin;
    try (exfalso; apply Hmin; reflexivity);
    first [ exists true; split; [vm_compute; reflexivity|];
            intros _; eexists;
            split; [vm_compute; reflexivity|vm_compute; reflexivity]
          | exists false; split; [vm_compute; reflexivity|discriminate] ].
Qed.

Lemma wf_memP : wf_table memP tZ hP layP.
Proof.
  constructor.
  - vm_compute. split; [discriminate|reflexivity].
  - intros i Hi. change (2 ^ hmap_B hP) with 4 in Hi.
    assert (i = 0 \/ i = 1 \/ i = 2 \/ i = 3) as [-> |[-> |[-> | ->]]] by lia;
      (split; [discriminate|]);
      (split; [apply chain_single; [vm_compute; discriminate|vm_compute; reflexivity]|]);
      repeat constructor; solve_clean.
  - intros _. split; [vm_compute; discriminate|].
    intros j Hj. change (2 ^ (hmap_B hP - 1)) with 2 in *.
    assert (j = 0 \/ j = 1) as [-> | ->] by lia.
    + exists true. split; [vm_compute; reflexivity|discriminate].
    + exists false. split; [vm_compute; reflexivity|]. intros _.
      split; [discriminate|]. split.
      { econstructor; [vm_compute; discriminate|vm_compute; reflexivity|].
        apply chain_single; [discriminate|vm_compute; reflexivity]. }
      split; [repeat constructor; solve_clean|].
      split; [repeat constructor; apply placed_P; auto|].
      split; repeat constructor; solve_empty.
  - vm_compute. reflexivity.
Qed.

Example traverse_memP :
  traverse 20 memP tZ 500 itZ 6 0 =
    Ok ([(1296, 1360); (3160, 3224); (3168, 3232); (1008, 1072);
         (3152, 3216); (4056, 4120)], [2; 3; 0; 1]).
Proof. vm_compute. reflexivity. Qed.

(** ** The theorems at work on that table *)

Lemma traverse_complete_witness :
  (500 <> 0 /\ load_hmap memP 500 = Ok hP /\ wf_table memP tZ hP layP) /\
  exists fuel0 ys log,
    (forall fuel, (fuel0 <= fuel)%nat ->
       traverse fuel memP tZ 500 itZ 6 0 = Ok (ys, log)) /\
    ys ≡ₚ live_entries memP tZ hP layP /\
    (NoDup (map fst (live_entries memP tZ hP layP)) -> NoDup (map fst ys)).
Proof.
  assert (H1 : 500 <> 0) by discriminate.
  assert (H2 : load_hmap memP 500 = Ok hP) by (vm_compute; reflexivity).
  split; [split; [exact H1|split; [exact H2|exact wf_memP]]|].
  exact (traverse_complete memP tZ 500 hP layP itZ 6 0 H1 H2 wf_memP).
Defined.

Lemma advance_terminates_witness :
  (500 <> 0 /\ load_hmap memP 500 = Ok hP /\ wf_table memP tZ hP layP /\
   count hP <> 0) /\
  exists fuel0, forall fuel, (fuel0 <= fuel)%nat -> forall k,
    exists it_k it_k1,
      (it1 ← mapiterinit fuel memP tZ 500 itZ 6 0; advances k fuel memP it1)
        = Ok it_k /\
      mapiternext fuel memP it_k = Ok it_k1 /\
      (key it_k = 0 -> key it_k1 = 0 /\ value it_k1 = 0).
Proof.
  assert (H1 : 500 <> 0) by discriminate.
  assert (H2 : load_hmap memP 500 = Ok hP) by (vm_compute; reflexivity).
  assert (H3 : count hP <> 0) by discriminate.
  split; [split; [exact H1|split; [exact H2|split; [exact wf_memP|exact H3]]]|].
  exact (proj1 (advance_terminates memP tZ 500 hP layP itZ 6 0 H1 H2 wf_memP H3)).
Defined.

Lemma next_bucket_growing_witness :
  (load_hmap memP (it_h (itP 3)) = Ok hP /\ oldbuckets hP <> 0 /\
   B (itP 3) = hmap_B hP /\ 1 <= B (itP 3) < 2 ^ 8 /\ 0 <= 3 < 2 ^ 64 /\
   (3 =? startBucket (itP 3)) && wrapped (itP 3) = false /\
   evacuated memP 3144 = Ok false) /\
  next_bucket memP tZ (itP 3) 3 =
    Ok (inr (set_wrapped (itP 3) true, 0, 3144, 0, 3)).
Proof.
  assert (H1 : load_hmap memP (it_h (itP 3)) = Ok hP) by (vm_compute; reflexivity).
  assert (H2 : oldbuckets hP <> 0) by discriminate.
  assert (H3 : B (itP 3) = hmap_B hP) by reflexivity.
  assert (H4 : 1 <= B (itP 3) < 2 ^ 8) by (vm_compute; split; [discriminate|reflexivity]).
  assert (H5 : 0 <= 3 < 2 ^ 64) by (vm_compute; split; [discriminate|reflexivity]).
  assert (H6 : (3 =? startBucket (itP 3)) && wrapped (itP 3) = false) by reflexivity.
  assert (H7 : evacuated memP 3144 = Ok false) by (vm_compute; reflexivity).
  split; [repeat split; assumption || apply H4 || apply H5|].
  exact (proj1 (next_bucket_growing memP tZ (itP 3) 3 hP H1 H2 H3 H4 H5 H6) H7).
Defined.

Lemma scan_slot_check_reflexive_witness :
  (3 <> noCheck /\ 1 <> noCheck /\
   tophash memP 3144 (slot_index (itP 3) 0) = Ok 4 /\
   4 <> empty /\ 4 <> evacuatedEmpty /\ 4 <> evacuatedX /\ 4 <> evacuatedY /\
   deref_if memP (indirectkey tZ) (keyslot tZ 3144 (slot_index (itP 3) 0))
     = Ok 3152 /\
   deref_if memP (indirectvalue tZ) (valueslot tZ 3144 (slot_index (itP 3) 0))
     = Ok 3216 /\
   key_reflexive memP tZ 3152 = Ok true /\ load_key memP 3152 = Ok 1 /\
   load_hmap memP (it_h (itP 3)) = Ok hP /\ 0 <= B (itP 3) /\
   Z.land (hash_of tZ 1 (hash0 hP)) (2 ^ B (itP 3) - 1) = 1 /\
   oldbuckets hP <> 0 /\ B (itP 3) = hmap_B hP /\ 1 <= B (itP 3) < 2 ^ 8 /\
   evacuated memP (oldbucket tZ hP (1 mod 2 ^ (B (itP 3) - 1))) = Ok false) /\
  scan_slot 5 memP tZ (itP 3) 3144 3 0 = Ok SlotSkip /\
  (forall k v, scan_slot 5 memP tZ (itP 3) 3144 1 0 = Ok (SlotYield k v) ->
     Z.land (hash_of tZ 1 (hash0 hP)) (2 ^ B (itP 3) - 1) = 1) /\
  scan_slot 5 memP tZ (itP 3) 3144 1 0 = Ok (SlotYield 3152 3216) /\
  select_bucket memP tZ hP (itP 3) 1 =
    Ok (oldbucket tZ hP (1 mod 2 ^ (B (itP 3) - 1)), 1).
Proof.
  assert (H0 : 3 <> noCheck) by discriminate.
  assert (H1 : 1 <> noCheck) by discriminate.
  assert (H2 : tophash memP 3144 (slot_index (itP 3) 0) = Ok 4)
    by (vm_compute; reflexivity).
  assert (H3 : 4 <> empty) by discriminate.
  assert (H4 : 4 <> evacuatedEmpty) by discriminate.
  assert (H3' : 4 <> evacuatedX) by discriminate.
  assert (H4' : 4 <> evacuatedY) by discriminate.
  assert (H5 : deref_if memP (indirectkey tZ)
                 (keyslot tZ 3144 (slot_index (itP 3) 0)) = Ok 3152)
    by (vm_compute; reflexivity).
  assert (H5' : deref_if memP (indirectvalue tZ)
                  (valueslot tZ 3144 (slot_index (itP 3) 0)) = Ok 3216)
    by (vm_compute; reflexivity).
  assert (H6 : key_reflexive memP tZ 3152 = Ok true) by (vm_compute; reflexivity).
  assert (H7 : load_key memP 3152 = Ok 1) by (vm_compute; reflexivity).
  assert (H8 : load_hmap memP (it_h (itP 3)) = Ok hP) by (vm_compute; reflexivity).
  assert (H9 : 0 <= B (itP 3)) by discriminate.
  assert (Hd : Z.land (hash_of tZ 1 (hash0 hP)) (2 ^ B (itP 3) - 1) = 1)
    by (vm_compute; reflexivity).
  assert (Hd3 : Z.land (hash_of tZ 1 (hash0 hP)) (2 ^ B (itP 3) - 1) <> 3)
    by (rewrite Hd; discriminate).
  assert (H10 : oldbuckets hP <> 0) by discriminate.
  assert (H11 : B (itP 3) = hmap_B hP) by reflexivity.
  assert (H12 : 1 <= B (itP 3) < 2 ^ 8)
    by (vm_compute; split; [discriminate|reflexivity]).
  assert (H13 : evacuated memP (oldbucket tZ hP (1 mod 2 ^ (B (itP 3) - 1)))
                = Ok false) by (vm_compute; reflexivity).
  pose proof (scan_slot_check_reflexive 5 memP tZ (itP 3) 3144 3 0 4 3152 1 hP
                H0 H2 H3 H4 H5 H6 H7 H8 H9) as Hat3.
  pose proof (scan_slot_check_reflexive 5 memP tZ (itP 3) 3144 1 0 4 3152 1 hP
                H1 H2 H3 H4 H5 H6 H7 H8 H9) as Hat1.
  cbv zeta in Hat3, Hat1.
  destruct Hat3 as (_ & Hskip & _).
  destruct Hat1 as (Honly & _ & Hyield & Hvisit).
  rewrite Hd in Hvisit.
  split; [repeat split; assumption || apply H12|].
  split; [exact (Hskip Hd3)|].
  split; [exact Honly|].
  split; [exact (Hyield Hd H3' H4' 3216 H5')|].
  exact (Hvisit H10 H11 H12 H13).
Defined.

Lemma scan_slot_check_nonreflexive_witness :
  (tophash memP 3144 (slot_index (itP 3) 2) = Ok 5 /\
   5 <> empty /\ 5 <> evacuatedEmpty /\
   deref_if memP (indirectkey tZ) (keyslot tZ 3144 (slot_index (itP 3) 2))
     = Ok 3168 /\
   key_reflexive memP tZ 3168 = Ok false /\
   deref_if memP (indirectvalue tZ) (valueslot tZ 3144 (slot_index (itP 3) 2))
     = Ok 3232 /\
   1 <= B (itP 3) < 64) /\
  (scan_slot 5 memP tZ (itP 3) 3144 1 2 = Ok SlotSkip /\
   scan_slot 5 memP tZ (itP 3) 3144 3 2 = Ok (SlotYield 3168 3232)).
Proof.
  assert (H1 : tophash memP 3144 (slot_index (itP 3) 2) = Ok 5)
    by (vm_compute; reflexivity).
  assert (H2 : 5 <> empty) by discriminate.
  assert (H3 : 5 <> evacuatedEmpty) by discriminate.
  assert (H4 : deref_if memP (indirectkey tZ)
                 (keyslot tZ 3144 (slot_index (itP 3) 2)) = Ok 3168)
    by (vm_compute; reflexivity).
  assert (H5 : key_reflexive memP tZ 3168 = Ok false) by (vm_compute; reflexivity).
  assert (H6 : deref_if memP (indirectvalue tZ)
                 (valueslot tZ 3144 (slot_index (itP 3) 2)) = Ok 3232)
    by (vm_compute; reflexivity).
  assert (H7 : 1 <= B (itP 3) < 64) by (vm_compute; split; [discriminate|reflexivity]).
  split; [repeat split; assumption || apply H7|].
  pose proof (scan_slot_check_nonreflexive 5 memP tZ (itP 3) 3144 2 5 3168 3232
                H1 H2 H3 H4 H5 H6 H7) as [Hcb _].
  split.
  - apply (proj1 (Hcb 1 ltac:(discriminate))). discriminate.
  - apply (proj2 (Hcb 3 ltac:(discriminate))). reflexivity.
Defined.

Lemma scan_slot_evacuated_witness :
  (tophash memP 3000 (slot_index itOld 0) = Ok evacuatedX /\
   (evacuatedX = evacuatedX \/ evacuatedX = evacuatedY) /\
   deref_if memP (indirectkey tZ) (keyslot tZ 3000 (slot_index itOld 0))
     = Ok 3008 /\
   (noCheck = noCheck \/
    check_slot memP tZ itOld noCheck (keyslot tZ 3000 (slot_index itOld 0))
      evacuatedX = Ok true) /\
   key_reflexive memP tZ 3008 = Ok true /\
   mapaccessK 5 memP tZ (it_h itOld) 3008 = Ok (1008, 1072)) /\
  scan_slot 5 memP tZ itOld 3000 noCheck 0 = Ok (SlotYield 1008 1072).
Proof.
  assert (H1 : tophash memP 3000 (slot_index itOld 0) = Ok evacuatedX)
    by (vm_compute; reflexivity).
  assert (H2 : evacuatedX = evacuatedX \/ evacuatedX = evacuatedY)
    by (left; reflexivity).
  assert (H3 : deref_if memP (indirectkey tZ)
                 (keyslot tZ 3000 (slot_index itOld 0)) = Ok 3008)
    by (vm_compute; reflexivity).
  assert (H4 : noCheck = noCheck \/
               check_slot memP tZ itOld noCheck
                 (keyslot tZ 3000 (slot_index itOld 0)) evacuatedX = Ok true)
    by (left; reflexivity).
  assert (H5 : key_reflexive memP tZ 3008 = Ok true) by (vm_compute; reflexivity).
  assert (H6 : mapaccessK 5 memP tZ (it_h itOld) 3008 = Ok (1008, 1072))
    by (vm_compute; reflexivity).
  split; [repeat split; assumption|].
  exact (proj1 (scan_slot_evacuated 5 memP tZ itOld 3000 noCheck 0 evacuatedX
                  3008 H1 H2 H3 H4) H5 1008 1072 H6).
Defined.

(** C4, as stated, fails.  The iterator took old bucket 0 for bucket 0
    while it was not evacuated ([checkBucket = 0]) and returned with the
    entry of its slot 0, so that slot 1 is the next; a write has evacuated
    the bucket since.  Slot 1 is marked [evacuatedY], its key 6 is
    reflexive and [mapaccessK] finds it in the current table, yet the slot
    is skipped with no lookup: the key hashes to bucket 2, not to bucket 0.
    The call goes on to old bucket 1 and returns with key 1. *)
Lemma scan_slot_evacuated_filtered :
  mapiternext 20 memP_before (itP 0) = Ok itP0_next /\
  (bptr itP0_next = 3000 /\ checkBucket itP0_next = 0 /\ it_i itP0_next = 1) /\
  tophash memP 3000 (slot_index itP0_next 1) = Ok evacuatedY /\
  deref_if memP (indirectkey tZ) (keyslot tZ 3000 (slot_index itP0_next 1))
    = Ok 3016 /\
  key_reflexive memP tZ 3016 = Ok true /\
  mapaccessK 5 memP tZ (it_h itP0_next) 3016 = Ok (1296, 1360) /\
  scan_slot 5 memP tZ itP0_next 3000 0 1 = Ok SlotSkip /\
  scan_slot 5 memP tZ (itP 0) 3000 0 1 = Ok SlotSkip /\
  (exists it', mapiternext 20 memP itP0_next = Ok it' /\ key it' = 3152).
Proof.
  split; [vm_compute; reflexivity|].
  split; [repeat split|].
  split; [vm_compute; reflexivity|].
  split; [vm_compute; reflexivity|].
  split; [vm_compute; reflexivity|].
  split; [vm_compute; reflexivity|].
  split; [vm_compute; reflexivity|].
  split; [vm_compute; reflexivity|].
  eexists. split; [vm_compute; reflexivity|reflexivity].
Qed.



Lemma mapaccessK_nil_or_empty_witness :
  (600 = 0 \/ exists h, hmE !! 600 = Some h /\ count h = 0) /\
  mapaccessK 0 (Mem hmE ∅ ∅ ∅) tZ 600 1008 = Ok (0, 0).
Proof.
  assert (H : 600 = 0 \/ exists h, hmE !! 600 = Some h /\ count h = 0).
  { right. exists (Hmap 0 0 0 0 0 0 0). split; [vm_compute; reflexivity|reflexivity]. }
  split; [exact H|].
  exact (mapaccessK_nil_or_empty hmE tZ 600 1008 H O ∅ ∅ ∅).
Defined.

Lemma mapaccessK_tag_and_old_table_witness :
  (500 <> 0 /\ load_hmap memT 500 = Ok hT /\ count hT <> 0 /\
   load_key memT 7000 = Ok keyA /\ oldbuckets hT <> 0 /\ 1 <= hmap_B hT < 64 /\
   evacuated memT
     (oldbucket tZ hT (hash_of tZ keyA (hash0 hT) mod 2 ^ (hmap_B hT - 1)))
     = Ok false /\
   chain memT tZ
     (oldbucket tZ hT (hash_of tZ keyA (hash0 hT) mod 2 ^ (hmap_B hT - 1)))
     ([] ++ 3000 :: []) /\
   slot_match memT tZ keyA (tophash_of (hash_of tZ keyA (hash0 hT))) 3000 0
     = Ok false /\
   slot_match memT tZ keyA (tophash_of (hash_of tZ keyA (hash0 hT))) 3000 1
     = Ok false /\
   slot_match memT tZ keyA (tophash_of (hash_of tZ keyA (hash0 hT))) 3000 2
     = Ok true) /\
  mapaccessK 1 memT tZ 500 7000 = Ok (3024, 3088) /\
  (hash_of tZ keyA (hash0 hT) / 2 ^ 56 = 200 /\
   tophash_of (hash_of tZ keyA (hash0 hT)) =
     (if hash_of tZ keyA (hash0 hT) / 2 ^ 56 <? minTopHash
      then hash_of tZ keyA (hash0 hT) / 2 ^ 56 + minTopHash
      else hash_of tZ keyA (hash0 hT) / 2 ^ 56)) /\
  (hash_of tZ 5 (hash0 hT) / 2 ^ 56 = 0 /\
   tophash_of (hash_of tZ 5 (hash0 hT)) =
     (if hash_of tZ 5 (hash0 hT) / 2 ^ 56 <? minTopHash
      then hash_of tZ 5 (hash0 hT) / 2 ^ 56 + minTopHash
      else hash_of tZ 5 (hash0 hT) / 2 ^ 56)).
Proof.
  assert (H1 : 500 <> 0) by discriminate.
  assert (H2 : load_hmap memT 500 = Ok hT) by (vm_compute; reflexivity).
  assert (H3 : count hT <> 0) by discriminate.
  assert (H4 : load_key memT 7000 = Ok keyA) by (vm_compute; reflexivity).
  assert (H5 : oldbuckets hT <> 0) by discriminate.
  assert (H6 : 1 <= hmap_B hT < 64) by (vm_compute; split; [discriminate|reflexivity]).
  assert (H7 : evacuated memT
                 (oldbucket tZ hT
                    (hash_of tZ keyA (hash0 hT) mod 2 ^ (hmap_B hT - 1)))
               = Ok false) by (vm_compute; reflexivity).
  assert (H8 : chain memT tZ
                 (oldbucket tZ hT
                    (hash_of tZ keyA (hash0 hT) mod 2 ^ (hmap_B hT - 1)))
                 ([] ++ 3000 :: [])).
  { replace (oldbucket tZ hT
               (hash_of tZ keyA (hash0 hT) mod 2 ^ (hmap_B hT - 1)))
      with 3000 by (vm_compute; reflexivity).
    apply chain_single; [discriminate|vm_compute; reflexivity]. }
  assert (Hs0 : slot_match memT tZ keyA
                  (tophash_of (hash_of tZ keyA (hash0 hT))) 3000 0 = Ok false)
    by (vm_compute; reflexivity).
  assert (Hs1 : slot_match memT tZ keyA
                  (tophash_of (hash_of tZ keyA (hash0 hT))) 3000 1 = Ok false)
    by (vm_compute; reflexivity).
  assert (H9 : slot_match memT tZ keyA
                 (tophash_of (hash_of tZ keyA (hash0 hT))) 3000 2 = Ok true)
    by (vm_compute; reflexivity).
  pose proof (@mapaccessK_tag_and_old_table Z) as (_ & Htag & Hold).
  split; [repeat split; assumption || apply H6|].
  split.
  - apply (Hold memT tZ 500 hT 7000 keyA [] 3000 [] 2 3024 3088
             H1 H2 H3 H4 H5 H6 H7 H8).
    + constructor.
    + vm_compute. split; [discriminate|reflexivity].
    + intros i' Hi'. assert (i' = 0 \/ i' = 1) as [-> | ->] by lia;
        assumption.
    + exact H9.
    + vm_compute. reflexivity.
    + vm_compute. reflexivity.
    + simpl. lia.
  - split.
    + split; [vm_compute; reflexivity|].
      exact (proj2 (proj2 (Htag tZ keyA (hash0 hT)))).
    + split; [vm_compute; reflexivity|].
      exact (proj2 (proj2 (Htag tZ 5 (hash0 hT)))).
Defined.

Lemma mapiterinit_spec_witness :
  (500 <> 0 /\ load_hmap memP 500 = Ok hP /\ count hP <> 0 /\
   0 <= hmap_B hP < 2 ^ 8) /\
  (exists it', mapiterinit 20 memP tZ 0 itZ 6 0 = Ok it' /\
               key it' = 0 /\ value it' = 0 /\
               traverse 20 memP tZ 0 itZ 6 0 = Ok ([], [])) /\
  mapiterinit 20 memP tZ 500 itZ 6 0 =
    mapiternext 20 memP
      (Hiter 0 0 (Some tZ) 500 1000 0 0 0 2 1 false 2 0 2 0).
Proof.
  assert (H1 : 500 <> 0) by discriminate.
  assert (H2 : load_hmap memP 500 = Ok hP) by (vm_compute; reflexivity).
  assert (H3 : count hP <> 0) by discriminate.
  assert (H4 : 0 <= hmap_B hP < 2 ^ 8) by (vm_compute; split; [discriminate|reflexivity]).
  split; [repeat split; assumption || apply H4|]. split.
  - exact (proj1 (mapiterinit_spec memP tZ 0 itZ 6 0 20) (or_introl eq_refl)).
  - exact (proj2 (proj2 (proj2 (mapiterinit_spec memP tZ 500 itZ 6 0 20) hP
                           H1 H2 H3 H4))).
Defined.

(** * More of the code *)

(** ** Lookups *)

Section MoreLookup.
Context {K : Type}.
Implicit Types (m : mem K) (t : maptype K) (it : hiter K) (h : hmap).

Lemma bind_Ok_inv {A C : Type} (r : res A) (f : A -> res C) (y : C) :
  r ≫= f = Ok y -> exists a, r = Ok a /\ f a = Ok y.
Proof. destruct r as [a| |]; simpl; [eauto|discriminate|discriminate]. Qed.

(** Where [mapaccessK] starts, in terms of the bucket indices. *)
Lemma access_start_new m t h hash :
  0 <= hmap_B h -> 0 <= hash < 2 ^ 64 ->
  oldbuckets h = 0 \/
    (1 <= hmap_B h < 64 /\
     evacuated m (oldbucket t h (hash mod 2 ^ (hmap_B h - 1))) = Ok true) ->
  access_start m t h hash = Ok (newbucket t h (hash mod 2 ^ hmap_B h)).
Proof.
  intros HB Hh Hcase. unfold access_start.
  rewrite land_mask64 by assumption. fold (newbucket t h (hash mod 2 ^ hmap_B h)).
  destruct Hcase as [Hold|(HB1 & Hev)].
  - rewrite Hold. reflexivity.
  - destruct (Z.eqb_spec (oldbuckets h) 0) as [|Hne]; [reflexivity|]. simpl.
    rewrite mask64_ones by lia. unfold shr64.
    assert (Hones : Z.shiftr (Z.ones (hmap_B h)) 1 = Z.ones (hmap_B h - 1)).
    { rewrite Z.shiftr_div_pow2 by lia. rewrite !Z.ones_equiv.
      replace (hmap_B h) with ((hmap_B h - 1) + 1) at 1 by lia.
      rewrite Z.pow_add_r by lia. change (2 ^ 1) with 2.
      assert (0 < 2 ^ (hmap_B h - 1)) by (apply Z.pow_pos_nonneg; lia).
      symmetry. apply Z.div_unique with (r := 1); lia. }
    rewrite Hones, Z.land_ones by lia.
    fold (oldbucket t h (hash mod 2 ^ (hmap_B h - 1))). rewrite Hev. reflexivity.
Qed.

(** The walk of [mapaccessK] along a chain without a match ends with
    [nil, nil]. *)
Lemma access_chain_miss m t kc top :
  forall bs b0,
    bs <> [] -> chain m t b0 bs ->
    Forall (fun b' => forall i', 0 <= i' < bucketCnt ->
                        slot_match m t kc top b' i' = Ok false) bs ->
    forall fuel, (length bs <= fuel)%nat ->
      access_chain fuel m t kc top b0 = Ok (0, 0).
Proof.
  induction bs as [|b bs IH]; intros b0 Hne Hch Hmiss fuel Hf; [congruence|].
  destruct fuel as [|fuel]; [simpl in Hf; lia|]. rewrite access_chain_unfold.
  apply chain_cons_inv in Hch as (-> & _ & b' & Hov & Hrest).
  inversion Hmiss as [|? ? Hb Hbs]; subst.
  rewrite access_bucket_miss.
  2:{ intros i' Hi'. apply Hb.
      change (Z.of_nat (Z.to_nat bucketCnt)) with bucketCnt in Hi'. lia. }
  simpl. rewrite Hov. simpl.
  destruct bs as [|b1 bs].
  - inversion Hrest; subst. reflexivity.
  - pose proof Hrest as Hr. apply chain_cons_inv in Hr as (-> & Hb1 & _).
    rewrite (neq_eqb b1 0) by assumption.
    apply IH; auto; try discriminate. simpl in *; lia.
Qed.

(** X1.  A lookup of a key that no slot of its chain holds (the chain in
    which [mapaccessK] starts, walked to its end) returns [nil, nil]. *)
Theorem mapaccessK_miss m t hp h key kc b0 bs :
  hp <> 0 -> load_hmap m hp = Ok h -> count h <> 0 ->
  load_key m key = Ok kc ->
  access_start m t h (hash_of t kc (hash0 h)) = Ok b0 ->
  bs <> [] -> chain m t b0 bs ->
  Forall (fun b' => forall i', 0 <= i' < bucketCnt ->
            slot_match m t kc (tophash_of (hash_of t kc (hash0 h))) b' i'
              = Ok false) bs ->
  forall fuel, (length bs <= fuel)%nat ->
    mapaccessK fuel m t hp key = Ok (0, 0).
Proof.
  intros Hhp Hh Hc Hkc Hst Hne Hch Hmiss fuel Hf.
  unfold mapaccessK. rewrite (neq_eqb hp 0) by assumption.
  rewrite Hh. simpl. rewrite (neq_eqb (count h) 0) by assumption.
  rewrite Hkc. simpl. rewrite Hst. simpl.
  eapply access_chain_miss; eauto.
Qed.

(** X2.  When the table does not grow, or the old bucket of the hash is
    evacuated, a lookup walks the chain of bucket [hash mod 2^B] of the
    current array and returns the first slot of it that holds the key. *)
Theorem mapaccessK_current_table m t hp h key kc pre b post i k v :
  hp <> 0 -> load_hmap m hp = Ok h -> count h <> 0 ->
  load_key m key = Ok kc -> 0 <= hmap_B h ->
  let hash := hash_of t kc (hash0 h) in
  let top := tophash_of hash in
  oldbuckets h = 0 \/
    (1 <= hmap_B h < 64 /\
     evacuated m (oldbucket t h (hash mod 2 ^ (hmap_B h - 1))) = Ok true) ->
  chain m t (newbucket t h (hash mod 2 ^ hmap_B h)) (pre ++ b :: post) ->
  Forall (fun b' => forall i', 0 <= i' < bucketCnt ->
                      slot_match m t kc top b' i' = Ok false) pre ->
  0 <= i < bucketCnt ->
  (forall i', 0 <= i' < i -> slot_match m t kc top b i' = Ok false) ->
  slot_match m t kc top b i = Ok true ->
  deref_if m (indirectkey t) (keyslot t b i) = Ok k ->
  deref_if m (indirectvalue t) (valueslot t b i) = Ok v ->
  forall fuel, (length pre < fuel)%nat ->
    mapaccessK fuel m t hp key = Ok (k, v).
Proof.
  intros Hhp Hh Hc Hkc HB hash top Hcase Hch Hpre Hi Hbefore Hhit Hk Hv fuel Hf.
  unfold mapaccessK. rewrite (neq_eqb hp 0) by assumption.
  rewrite Hh. simpl. rewrite (neq_eqb (count h) 0) by assumption.
  rewrite Hkc. simpl. fold hash. fold top.
  rewrite (access_start_new m t h hash HB (hash_of_range _ _ _) Hcase). simpl.
  eapply access_chain_finds; eauto.
Qed.




End MoreLookup.

(** ** What an advance keeps *)

Section Frame.
Context {K : Type}.
Implicit Types (m : mem K) (t : maptype K) (it : hiter K) (h : hmap).

Lemma snapshot_kept_refl it : snapshot_kept it it.
Proof. repeat split; auto. Qed.

Lemma snapshot_kept_trans it1 it2 it3 :
  snapshot_kept it1 it2 -> snapshot_kept it2 it3 -> snapshot_kept it1 it3.
Proof.
  unfold snapshot_kept. intros H1 H2.
  destruct H1 as (? & ? & ? & ? & ? & ? & ? & ? & ?).
  destruct H2 as (? & ? & ? & ? & ? & ? & ? & ? & ?).
  repeat split; try congruence. auto.
Qed.

Lemma checkBucket_ok_kept m it it' cb :
  snapshot_kept it it' -> checkBucket_ok m it cb -> checkBucket_ok m it' cb.
Proof.
  intros (_ & Hh & _ & _ & _ & _ & _ & HB & _) Hok Hcb.
  rewrite Hh, HB. auto.
Qed.

Lemma select_bucket_ok m t h it bkt b cb :
  load_hmap m (it_h it) = Ok h ->
  select_bucket m t h it bkt = Ok (b, cb) -> checkBucket_ok m it cb.
Proof.
  intros Hh Hsel Hcb. exists h. unfold select_bucket in Hsel.
  destruct (Z.eqb_spec (oldbuckets h) 0) as [Ho|Ho]; simpl in Hsel.
  { injection Hsel as <- <-. congruence. }
  destruct (Z.eqb_spec (B it) (hmap_B h)) as [HB|HB]; simpl in Hsel.
  2:{ injection Hsel as <- <-. congruence. }
  auto.
Qed.

Lemma bump_bucket_kept it bkt :
  snapshot_kept it (fst (bump_bucket it bkt)).
Proof.
  unfold bump_bucket. destruct (_ =? _); simpl;
    [repeat split; auto|apply snapshot_kept_refl].
Qed.

(** What a run of the loop leaves of the iterator, whatever the memory
    holds. *)
Lemma loop_frame m t :
  forall fuel it bkt b i cb it' log,
    mapiternext_loop fuel m t it bkt b i cb = Ok (it', log) ->
    snapshot_kept it it' /\
    ((b <> 0 -> checkBucket_ok m it cb) ->
     key it' <> 0 -> checkBucket_ok m it' (checkBucket it')).
Proof.
  induction fuel as [|fuel IH]; intros it bkt b i cb it' log Hloop;
    [discriminate|].
  assert (Hphase : forall it1 bkt1 b1 i1 cb1 chosen,
            phase m t fuel it1 bkt1 b1 i1 cb1 chosen = Ok (it', log) ->
            snapshot_kept it1 it' /\
            (checkBucket_ok m it1 cb1 -> key it' <> 0 ->
             checkBucket_ok m it' (checkBucket it'))).
  { intros it1 bkt1 b1 i1 cb1 chosen Hph. unfold phase in Hph.
    apply bind_Ok_inv in Hph as (r & _ & Hph).
    destruct r as [[[i' k] v]|].
    - injection Hph as <- <-. split; [repeat split; auto|].
      intros Hok _. simpl. eapply checkBucket_ok_kept; [|exact Hok].
      repeat split; auto.
    - apply bind_Ok_inv in Hph as (b' & _ & Hph).
      apply bind_Ok_inv in Hph as ([it2 log2] & Hrec & Hph).
      injection Hph as <- <-.
      destruct (IH _ _ _ _ _ _ _ Hrec) as (Hkept & Hcb).
      split; [assumption|]. intros Hok Hk. apply Hcb; auto. }
  rewrite loop_unfold in Hloop.
  destruct (Z.eqb_spec b 0) as [Hb|Hb].
  - apply bind_Ok_inv in Hloop as (st & Hnext & Hloop).
    unfold next_bucket in Hnext.
    destruct ((bkt =? startBucket it) && wrapped it).
    + injection Hnext as <-. injection Hloop as <- <-.
      split; [repeat split; auto|]. intros _ Hk. simpl in Hk. congruence.
    + apply bind_Ok_inv in Hnext as (h & Hh & Hnext).
      apply bind_Ok_inv in Hnext as ([b0 cb0] & Hsel & Hnext).
      pose proof (bump_bucket_kept it bkt) as Hbump.
      destruct (bump_bucket it bkt) as [it1 bkt1]. simpl in Hbump.
      injection Hnext as <-.
      destruct (Hphase _ _ _ _ _ _ Hloop) as (Hkept & Hcb).
      split; [eapply snapshot_kept_trans; eassumption|].
      intros _ Hk. apply Hcb; [|assumption].
      eapply checkBucket_ok_kept; [exact Hbump|].
      eapply select_bucket_ok; eassumption.
  - destruct (Hphase _ _ _ _ _ _ Hloop) as (Hkept & Hcb).
    split; [assumption|]. intros Hok Hk. apply Hcb; auto.
Qed.

(** X4.  Whatever the memory holds, a call of [mapiternext] that returns
    leaves [it.t], [it.h], [it.buckets], [it.B], [it.startBucket] and
    [it.offset] as they were, and never clears [it.wrapped]. *)
Theorem mapiternext_keeps_snapshot fuel m it it' :
  mapiternext fuel m it = Ok it' ->
  it_t it' = it_t it /\ it_h it' = it_h it /\ buckets it' = buckets it /\
  B it' = B it /\ startBucket it' = startBucket it /\
  offset it' = offset it /\ (wrapped it = true -> wrapped it' = true).
Proof.
  unfold mapiternext, mapiternext_log. intros Hn.
  apply bind_Ok_inv in Hn as ([it2 log] & Hn & Hret). injection Hret as <-.
  apply bind_Ok_inv in Hn as (t & _ & Hloop).
  apply loop_frame in Hloop as ((? & ? & ? & ? & ? & ? & ? & ? & ?) & _).
  simpl. auto 10.
Qed.

(** X5.  Whatever the memory holds: if the [checkBucket] stored in an
    iterator that is inside a bucket is active only for a growing table
    whose [B] is the snapshot [it.B], then so is the [checkBucket] that a
    call of [mapiternext] stores when it returns with an entry. *)
Theorem mapiternext_checkBucket fuel m it it' :
  mapiternext fuel m it = Ok it' ->
  key it' <> 0 ->
  (bptr it <> 0 -> checkBucket it <> noCheck ->
   exists h, load_hmap m (it_h it) = Ok h /\ oldbuckets h <> 0 /\
             B it = hmap_B h) ->
  checkBucket it' <> noCheck ->
  exists h, load_hmap m (it_h it') = Ok h /\ oldbuckets h <> 0 /\
            B it' = hmap_B h.
Proof.
  unfold mapiternext, mapiternext_log. intros Hn Hk Hin.
  apply bind_Ok_inv in Hn as ([it2 log] & Hn & Hret). injection Hret as <-.
  apply bind_Ok_inv in Hn as (t & _ & Hloop).
  apply loop_frame in Hloop as (_ & Hcb). simpl in *.
  apply Hcb; assumption.
Qed.

(** X6.  For a [nil] or empty map [mapiterinit] leaves [it.t] [nil], and
    a call of [mapiternext] on that iterator faults (it dereferences
    [it.t]). *)
Theorem mapiternext_after_empty_init fuel m t hp it r1 r2 :
  hp = 0 \/ (exists h, load_hmap m hp = Ok h /\ count h = 0) ->
  exists it', mapiterinit fuel m t hp it r1 r2 = Ok it' /\
              it_t it' = None /\ mapiternext fuel m it' = Fault.
Proof.
  intros Hempty. unfold mapiterinit, mapiterinit_log.
  destruct (Z.eqb_spec hp 0) as [|Hne].
  - eexists. split; [reflexivity|]. split; reflexivity.
  - destruct Hempty as [?|(h & Hh & Hc)]; [contradiction|].
    rewrite Hh. simpl. rewrite Hc. simpl.
    eexists. split; [reflexivity|]. split; reflexivity.
Qed.

End Frame.

(** ** The order of a traversal, and [randMapKey] *)

Lemma flat_map_ext_in {A C : Type} (f g : A -> list C) (l : list A) :
  (forall x, x ∈ l -> f x = g x) -> flat_map f l = flat_map g l.
Proof.
  induction l as [|x l IH]; intros Hfg; simpl; [reflexivity|].
  rewrite (Hfg x) by left. rewrite IH; [reflexivity|].
  intros y Hy. apply Hfg. right. assumption.
Qed.

Section Picking.

Context {K : Type}.
Variables (m : mem K) (t : maptype K) (hp : Z) (h : hmap) (lay : layout).
Variables (s off : Z).
Hypothesis Hhp : load_hmap m hp = Ok h.
Hypothesis Hwf : wf_table m t h lay.
Hypothesis Hs : 0 <= s < 2 ^ hmap_B h.

Local Abbreviation visit := (visit m t hp h lay s off).
Local Abbreviation sched := (sched h s).
Local Abbreviation icursor := (icursor m t hp h s off).
Local Abbreviation ipending := (ipending m t hp h lay s off).
Local Abbreviation iweight := (iweight m t h lay s).
Local Abbreviation it_start := (it_start t hp h s off).
Local Abbreviation fuel_start := (fuel_start m t hp h lay s off).

(** The iterator after [j] further advances is at entry [j] of what was
    left to read. *)
Lemma advances_nth fuel :
  forall j it cur,
    icursor it cur -> (iweight it cur < fuel)%nat -> key it <> 0 ->
    (j <= length (ipending it cur))%nat ->
    exists it',
      advances j fuel m it = Ok it' /\
      ((key it, value it) :: ipending it cur) !! j
        = Some (key it', value it') /\
      key it' <> 0.
Proof.
  induction j as [|j IH]; intros it cur Hc Hw Hk Hj.
  - exists it. auto.
  - destruct (mapiternext_log_spec m t hp h lay s off Hhp Hwf Hs it cur fuel Hc Hw)
      as (it1 & log & cur1 & Hnext & Hc1 & Hw1 & Hcase).
    simpl. unfold mapiternext. rewrite Hnext. simpl.
    destruct Hcase as [(Hk1 & Hp & _)|(_ & _ & Hp & _)].
    + destruct (IH it1 cur1) as (it' & Hadv & Hnth & Hk'); auto; try lia.
      { rewrite Hp in Hj. simpl in Hj. lia. }
      exists it'. rewrite Hp. auto.
    + rewrite Hp in Hj. simpl in Hj. lia.
Qed.

Lemma start_nth fuel i0 cb0 j :
  (fuel_start <= fuel)%nat ->
  (j < length (flat_map visit (sched s false)))%nat ->
  exists it1 it',
    mapiternext fuel m (it_start i0 cb0) = Ok it1 /\
    advances j fuel m it1 = Ok it' /\
    flat_map visit (sched s false) !! j = Some (key it', value it') /\
    key it' <> 0.
Proof.
  intros Hf Hj. unfold fuel_start in Hf.
  destruct (mapiternext_log_spec m t hp h lay s off Hhp Hwf Hs (it_start i0 cb0)
              [] fuel (it_start_cursor m t hp h s off Hs i0 cb0))
    as (it1 & log & cur1 & Hnext & Hc1 & Hw1 & Hcase).
  { unfold iweight. simpl. lia. }
  rewrite it_start_pending in Hcase.
  unfold iweight in Hw1 at 2. simpl in Hw1.
  destruct Hcase as [(Hk1 & Hp & _)|(_ & _ & Hp & _)].
  - destruct (advances_nth fuel j it1 cur1) as (it' & Hadv & Hnth & Hk');
      auto; try lia.
    { rewrite Hp in Hj. simpl in Hj. lia. }
    exists it1, it'. unfold mapiternext. rewrite Hnext, Hp. auto.
  - rewrite Hp in Hj. simpl in Hj. lia.
Qed.

Lemma visit_at_rest x :
  oldbuckets h = 0 -> 0 <= x < 2 ^ hmap_B h ->
  visit x =
    flat_map
      (fun b =>
         flat_map (fun i => slot_live m t b ((i + off) mod bucketCnt))
           (seqZ 0 bucketCnt))
      (newc lay x).
Proof.
  intros Hold Hx. unfold visit, pick. rewrite Hold.
  change (negb (0 =? 0)) with false. cbv iota. cbn [fst snd].
  unfold cyield. apply flat_map_ext_in. intros b Hb.
  unfold byield. replace (bucketCnt - 0) with bucketCnt by reflexivity.
  apply flat_map_ext_in. intros i Hi.
  destruct (wf_new _ _ _ _ Hwf x Hx) as (_ & _ & Hcl).
  rewrite Forall_forall in Hcl.
  rewrite syield_clean by (apply Hcl; [assumption|apply slot_index_range]).
  rewrite slot_index_mod. reflexivity.
Qed.

Lemma walk_at_rest :
  oldbuckets h = 0 ->
  flat_map visit (sched s false) = entries_in_order m t h lay s off.
Proof.
  intros Hold. unfold entries_in_order, sched, schedule. simpl.
  apply flat_map_ext_in. intros x Hx. apply visit_at_rest; [assumption|].
  apply elem_of_app in Hx as [Hx|Hx]; apply elem_of_seqZ in Hx; lia.
Qed.

End Picking.

Section MoreTraversal.
Context {K : Type}.
Implicit Types (m : mem K) (t : maptype K) (it : hiter K) (h : hmap).

Lemma start_of_mod h r1 r2 :
  0 <= hmap_B h -> start_of h r1 r2 = iter_rand h r1 r2 mod 2 ^ hmap_B h.
Proof.
  intros HB. unfold start_of. apply land_mask64; auto using iter_rand_range.
Qed.

Lemma offset_of_mod h r1 r2 :
  offset_of h r1 r2 = Z.shiftr (iter_rand h r1 r2) (hmap_B h) mod bucketCnt.
Proof.
  unfold offset_of, shr64. change (bucketCnt - 1) with (Z.ones 3).
  rewrite Z.land_ones by lia. change (2 ^ 3) with bucketCnt.
  apply wrap8_small.
  pose proof (Z.mod_pos_bound (Z.shiftr (iter_rand h r1 r2) (hmap_B h))
                bucketCnt eq_refl).
  change bucketCnt with 8 in *. lia.
Qed.

(** X7.  A traversal of a table at rest takes the buckets in cyclic order
    from the start bucket: [s, s+1, ..., 2^B - 1, 0, ..., s - 1] with
    [s = r mod 2^B]. *)
Theorem traverse_bucket_order m t hp h lay it r1 r2 :
  hp <> 0 -> load_hmap m hp = Ok h -> wf_table m t h lay -> count h <> 0 ->
  let s := iter_rand h r1 r2 mod 2 ^ hmap_B h in
  exists fuel0, forall fuel, (fuel0 <= fuel)%nat ->
    exists ys,
      traverse fuel m t hp it r1 r2
        = Ok (ys, seqZ s (2 ^ hmap_B h - s) ++ seqZ 0 s).
Proof.
  intros Hhp Hh Hwf Hc s. pose proof (wf_B _ _ _ _ Hwf) as HB.
  pose proof (start_of_range h r1 r2 ltac:(lia)) as Hs.
  exists (fuel_start m t hp h lay (start_of h r1 r2) (offset_of h r1 r2)).
  intros fuel Hf. eexists. unfold traverse.
  rewrite (mapiterinit_log_start fuel m t hp h) by assumption.
  rewrite (walk_from_start m t hp h lay _ _ Hh Hwf Hs fuel _ _ Hf).
  unfold sched, schedule. simpl. rewrite start_of_mod by lia. reflexivity.
Qed.

(** X8.  A traversal of a table at rest that does not grow yields the
    entries bucket by bucket in that cyclic order, each chain from its
    first bucket to its last, and the slots of each bucket in the order
    [off, off+1, ..., 7, 0, ..., off-1] with [off = (r >> B) mod 8]. *)
Theorem traverse_order_at_rest m t hp h lay it r1 r2 :
  hp <> 0 -> load_hmap m hp = Ok h -> wf_table m t h lay -> count h <> 0 ->
  oldbuckets h = 0 ->
  let r := iter_rand h r1 r2 in
  exists fuel0, forall fuel, (fuel0 <= fuel)%nat ->
    exists log,
      traverse fuel m t hp it r1 r2
        = Ok (entries_in_order m t h lay (r mod 2 ^ hmap_B h)
                (Z.shiftr r (hmap_B h) mod bucketCnt), log).
Proof.
  intros Hhp Hh Hwf Hc Hold r. pose proof (wf_B _ _ _ _ Hwf) as HB.
  pose proof (start_of_range h r1 r2 ltac:(lia)) as Hs.
  exists (fuel_start m t hp h lay (start_of h r1 r2) (offset_of h r1 r2)).
  intros fuel Hf. eexists. unfold traverse.
  rewrite (mapiterinit_log_start fuel m t hp h) by assumption.
  rewrite (walk_from_start m t hp h lay _ _ Hh Hwf Hs fuel _ _ Hf).
  rewrite (walk_at_rest m t hp h lay _ _ Hwf) by assumption.
  rewrite start_of_mod, offset_of_mod by lia. reflexivity.
Qed.

(** X9.  [randMapKey] on a [nil] map or on a map whose [count] is zero
    faults: [h.count] dereferences [nil], and [rand.Intn(0)] panics. *)
Theorem randMapKey_empty_faults fuel m t hp r1 r2 d :
  hp = 0 \/ (exists h, load_hmap m hp = Ok h /\ count h = 0) ->
  randMapKey fuel m t hp r1 r2 d = Fault.
Proof.
  intros Hempty. unfold randMapKey, mapiterinit, mapiterinit_log.
  destruct (Z.eqb_spec hp 0) as [|Hne]; [reflexivity|].
  destruct Hempty as [?|(h & Hh & Hc)]; [contradiction|].
  rewrite Hh. simpl. rewrite Hc. reflexivity.
Qed.

(** X10.  On a table at rest that is not empty, a traversal yields
    [count] entries, and [randMapKey] returns the key pointer of entry
    number [d mod count] of the traversal that the same draws [r1], [r2]
    give: a key pointer that is not [nil], of a live entry. *)
Theorem randMapKey_live m t hp h lay r1 r2 :
  hp <> 0 -> load_hmap m hp = Ok h -> wf_table m t h lay -> count h <> 0 ->
  exists fuel0 ys log, forall fuel, (fuel0 <= fuel)%nat ->
    traverse fuel m t hp new_hiter r1 r2 = Ok (ys, log) /\
    length ys = Z.to_nat (count h) /\
    forall d, exists k v,
      randMapKey fuel m t hp r1 r2 d = Ok k /\
      ys !! Z.to_nat (d mod count h) = Some (k, v) /\
      k <> 0 /\ (k, v) ∈ live_entries m t h lay.
Proof.
  intros Hhp Hh Hwf Hc. pose proof (wf_B _ _ _ _ Hwf) as HB.
  pose proof (start_of_range h r1 r2 ltac:(lia)) as Hs.
  set (s := start_of h r1 r2) in *. set (off := offset_of h r1 r2).
  pose proof (walk_live m t hp h lay s off Hh Hwf Hs) as Hperm.
  set (ys := flat_map (visit m t hp h lay s off) (sched h s s false)) in *.
  assert (Hlen : length ys = Z.to_nat (count h)).
  { rewrite (Permutation_length Hperm), (wf_count _ _ _ _ Hwf).
    rewrite Nat2Z.id. reflexivity. }
  assert (Hpos : 0 < count h).
  { pose proof (wf_count _ _ _ _ Hwf). lia. }
  exists (fuel_start m t hp h lay s off), ys, (sched h s s false).
  intros fuel Hf. split; [|split; [exact Hlen|]].
  - unfold traverse.
    rewrite (mapiterinit_log_start fuel m t hp h) by assumption.
    apply (walk_from_start m t hp h lay _ _ Hh Hwf Hs). exact Hf.
  - intros d.
    pose proof (Z.mod_pos_bound d (count h) Hpos) as Hd.
    destruct (start_nth m t hp h lay s off Hh Hwf Hs fuel
                (it_i (@new_hiter K)) (checkBucket (@new_hiter K))
                (Z.to_nat (d mod count h)) Hf)
      as (it1 & it' & Hinit & Hadv & Hnth & Hk).
    { fold ys. rewrite Hlen. lia. }
    fold ys in Hnth.
    exists (key it'), (value it'). split; [|split; [exact Hnth|split]].
    + unfold randMapKey, mapiterinit.
      rewrite (mapiterinit_log_start fuel m t hp h) by assumption.
      unfold mapiternext in Hinit.
      destruct (mapiternext_log fuel m _) as [[it2 log2]| |]; simpl in Hinit;
        try discriminate.
      injection Hinit as ->. simpl.
      rewrite (neq_eqb hp 0) by assumption. rewrite Hh. simpl.
      unfold intn. destruct (Z.leb_spec (count h) 0); [lia|]. simpl.
      rewrite Hadv. reflexivity.
    + exact Hk.
    + rewrite <- Hperm. eapply list_elem_of_lookup_2. exact Hnth.
Qed.

End MoreTraversal.

(** ** A [hiter] used again *)

Section Reuse.
Context {K : Type}.
Implicit Types (m : mem K) (t : maptype K) (it : hiter K) (h : hmap).

Lemma scan_bucket_snapshot fuel m t it it' b cb :
  same_snapshot it it' ->
  forall n i,
    scan_bucket n fuel m t it' b cb i = scan_bucket n fuel m t it b cb i.
Proof.
  intros (_ & Hh & _ & _ & _ & _ & Ho & _ & HB).
  induction n as [|n IH]; intros i; [reflexivity|]. simpl.
  rewrite (scan_slot_conf fuel m t it' it) by assumption.
  destruct (scan_slot fuel m t it b cb i) as [[|k v]| |]; simpl; auto.
Qed.

Lemma set_position_snapshot it it' k v bkt b i cb :
  same_snapshot it it' ->
  set_position it' k v bkt b i cb = set_position it k v bkt b i cb.
Proof.
  intros (Ht & Hh & Hb & Ho0 & Ho1 & Hs & Ho & Hw & HB).
  unfold set_position. rewrite Ht, Hh, Hb, Ho0, Ho1, Hs, Ho, Hw, HB.
  reflexivity.
Qed.

Lemma loop_snapshot m t :
  forall fuel it it' bkt b i i' cb cb' a log,
    same_snapshot it it' -> (b <> 0 -> i' = i /\ cb' = cb) ->
    mapiternext_loop fuel m t it bkt b i cb = Ok (a, log) ->
    exists a',
      mapiternext_loop fuel m t it' bkt b i' cb' = Ok (a', log) /\
      same_snapshot a a' /\ (key a <> 0 -> a' = a).
Proof.
  induction fuel as [|fuel IH]; intros it it' bkt b i i' cb cb' a log HR Hb
    Hloop; [discriminate|].
  assert (Hphase : forall it1 it1' bkt1 b1 i1 cb1 chosen,
            same_snapshot it1 it1' ->
            phase m t fuel it1 bkt1 b1 i1 cb1 chosen = Ok (a, log) ->
            exists a',
              phase m t fuel it1' bkt1 b1 i1 cb1 chosen = Ok (a', log) /\
              same_snapshot a a' /\ (key a <> 0 -> a' = a)).
  { intros it1 it1' bkt1 b1 i1 cb1 chosen HR1 Hph. unfold phase in *.
    rewrite (scan_bucket_snapshot _ _ _ _ _ _ _ HR1).
    apply bind_Ok_inv in Hph as (r & Hscan & Hph). rewrite Hscan. simpl.
    destruct r as [[[i2 k] v]|].
    - injection Hph as <- <-. eexists. split; [reflexivity|].
      rewrite (set_position_snapshot _ _ _ _ _ _ _ _ HR1).
      split; [repeat split|reflexivity].
    - apply bind_Ok_inv in Hph as (b' & Hov & Hph). rewrite Hov. simpl.
      apply bind_Ok_inv in Hph as ([a2 log2] & Hrec & Hph).
      injection Hph as <- <-.
      destruct (IH it1 it1' bkt1 b' 0 0 cb1 cb1 a2 log2 HR1 ltac:(auto) Hrec)
        as (a' & Hrec' & HRa & Heq).
      rewrite Hrec'. simpl. eauto. }
  rewrite loop_unfold in *.
  destruct (Z.eqb_spec b 0) as [Hb0|Hb0].
  - pose proof HR as (Ht & Hh & Hbs & Ho0 & Ho1 & Hs & Ho & Hw & HB).
    apply bind_Ok_inv in Hloop as (st & Hnext & Hloop).
    unfold next_bucket in *. rewrite Hs, Hw, Hh.
    destruct ((bkt =? startBucket it) && wrapped it).
    + injection Hnext as <-. injection Hloop as <- <-. simpl.
      eexists. split; [reflexivity|]. split.
      * repeat split; simpl; assumption.
      * simpl. congruence.
    + apply bind_Ok_inv in Hnext as (h & Hld & Hnext). rewrite Hld. simpl.
      apply bind_Ok_inv in Hnext as ([b0 cb0] & Hsel & Hnext).
      assert (Hsel' : select_bucket m t h it' bkt = Ok (b0, cb0)).
      { unfold select_bucket in *. rewrite HB, Hbs. exact Hsel. }
      rewrite Hsel'. simpl.
      assert (Hbump : same_snapshot (fst (bump_bucket it bkt))
                        (fst (bump_bucket it' bkt)) /\
                      snd (bump_bucket it' bkt) = snd (bump_bucket it bkt)).
      { unfold bump_bucket. rewrite HB. destruct (_ =? _); simpl;
          (split; [|reflexivity]); [repeat split; simpl; assumption|exact HR]. }
      destruct (bump_bucket it bkt) as [it1 bkt1].
      destruct (bump_bucket it' bkt) as [it1' bkt1'].
      simpl in Hbump. destruct Hbump as (HR1 & ->).
      injection Hnext as <-. simpl.
      apply (Hphase it1 it1'); assumption.
  - destruct (Hb Hb0) as (-> & ->). apply (Hphase it it'); assumption.
Qed.

(** X11.  When [mapiterinit] returns on an entry, the iterator it returns
    does not depend on what the [hiter] held before the call. *)
Theorem mapiterinit_ignores_iterator fuel m t hp it1 it2 r1 r2 a :
  mapiterinit fuel m t hp it1 r1 r2 = Ok a -> key a <> 0 ->
  mapiterinit fuel m t hp it2 r1 r2 = Ok a.
Proof.
  unfold mapiterinit, mapiterinit_log. intros Hinit Hk.
  destruct (hp =? 0).
  { simpl in Hinit. injection Hinit as <-. simpl in Hk. congruence. }
  destruct (load_hmap m hp) as [h| |]; simpl in *; try discriminate.
  destruct (count h =? 0).
  { simpl in Hinit. injection Hinit as <-. simpl in Hk. congruence. }
  apply bind_Ok_inv in Hinit as ([a1 log] & Hlog & Hret).
  injection Hret as <-. unfold mapiternext_log in *. simpl in *.
  eapply loop_snapshot with (i' := it_i it2) (cb' := checkBucket it2)
    in Hlog as (a' & Hlog' & _ & Heq).
  - rewrite Hlog'. simpl. rewrite (Heq Hk). reflexivity.
  - repeat split.
  - congruence.
Qed.

End Reuse.

(** ** A table of two buckets that does not grow *)

Lemma wf_memQ : wf_table memQ tZ hQ layQ.
Proof.
  constructor.
  - vm_compute. split; [discriminate|reflexivity].
  - intros i Hi. change (2 ^ hmap_B hQ) with 2 in Hi.
    assert (i = 0 \/ i = 1) as [-> | ->] by lia.
    + split; [discriminate|]. split.
      { econstructor; [vm_compute; discriminate|vm_compute; reflexivity|].
        apply chain_single; [discriminate|vm_compute; reflexivity]. }
      repeat constructor; solve_clean.
    + split; [discriminate|].
      split; [apply chain_single; [vm_compute; discriminate|vm_compute; reflexivity]|].
      repeat constructor; solve_clean.
  - intros Ho. exfalso. apply Ho. reflexivity.
  - vm_compute. reflexivity.
Qed.

Example traverse_memQ :
  traverse 20 memQ tZ 500 itZ 11 0 =
    Ok ([(1192, 1256); (1008, 1072); (2024, 2088)], [1; 0]).
Proof. vm_compute. reflexivity. Qed.

(** ** The further theorems at work on the two tables *)

Lemma mapaccessK_miss_witness :
  (500 <> 0 /\ load_hmap memP 500 = Ok hP /\ count hP <> 0 /\
   load_key memP 4008 = Ok 0 /\
   access_start memP tZ hP (hash_of tZ 0 (hash0 hP)) = Ok 1000 /\
   [1000] <> [] /\ chain memP tZ 1000 [1000] /\
   Forall (fun b' => forall i', 0 <= i' < bucketCnt ->
             slot_match memP tZ 0 (tophash_of (hash_of tZ 0 (hash0 hP))) b' i'
               = Ok false) [1000] /\
   (length [1000] <= 1)%nat) /\
  mapaccessK 1 memP tZ 500 4008 = Ok (0, 0).
Proof.
  assert (H1 : 500 <> 0) by discriminate.
  assert (H2 : load_hmap memP 500 = Ok hP) by (vm_compute; reflexivity).
  assert (H3 : count hP <> 0) by discriminate.
  assert (H4 : load_key memP 4008 = Ok 0) by (vm_compute; reflexivity).
  assert (H5 : access_start memP tZ hP (hash_of tZ 0 (hash0 hP)) = Ok 1000)
    by (vm_compute; reflexivity).
  assert (H6 : [1000] <> []) by discriminate.
  assert (H7 : chain memP tZ 1000 [1000])
    by (apply chain_single; [discriminate|vm_compute; reflexivity]).
  assert (H8 : Forall (fun b' => forall i', 0 <= i' < bucketCnt ->
             slot_match memP tZ 0 (tophash_of (hash_of tZ 0 (hash0 hP))) b' i'
               = Ok false) [1000])
    by (repeat constructor; solve_empty).
  assert (H9 : (length [1000] <= 1)%nat) by (simpl; lia).
  split; [repeat split; assumption|].
  exact (mapaccessK_miss memP tZ 500 hP 4008 0 1000 [1000]
           H1 H2 H3 H4 H5 H6 H7 H8 1%nat H9).
Defined.

Lemma mapaccessK_current_table_witness :
  (500 <> 0 /\ load_hmap memP 500 = Ok hP /\ count hP <> 0 /\
   load_key memP 3008 = Ok 4 /\ 0 <= hmap_B hP /\
   (oldbuckets hP = 0 \/
    (1 <= hmap_B hP < 64 /\
     evacuated memP
       (oldbucket tZ hP (hash_of tZ 4 (hash0 hP) mod 2 ^ (hmap_B hP - 1)))
       = Ok true)) /\
   chain memP tZ (newbucket tZ hP (hash_of tZ 4 (hash0 hP) mod 2 ^ hmap_B hP))
     ([] ++ 1000 :: []) /\
   0 <= 0 < bucketCnt /\
   slot_match memP tZ 4 (tophash_of (hash_of tZ 4 (hash0 hP))) 1000 0
     = Ok true /\
   deref_if memP (indirectkey tZ) (keyslot tZ 1000 0) = Ok 1008 /\
   deref_if memP (indirectvalue tZ) (valueslot tZ 1000 0) = Ok 1072 /\
   (length (@nil Z) < 1)%nat) /\
  mapaccessK 1 memP tZ 500 3008 = Ok (1008, 1072).
Proof.
  assert (H1 : 500 <> 0) by discriminate.
  assert (H2 : load_hmap memP 500 = Ok hP) by (vm_compute; reflexivity).
  assert (H3 : count hP <> 0) by discriminate.
  assert (H4 : load_key memP 3008 = Ok 4) by (vm_compute; reflexivity).
  assert (H5 : 0 <= hmap_B hP) by discriminate.
  assert (H6 : oldbuckets hP = 0 \/
    (1 <= hmap_B hP < 64 /\
     evacuated memP
       (oldbucket tZ hP (hash_of tZ 4 (hash0 hP) mod 2 ^ (hmap_B hP - 1)))
       = Ok true)).
  { right. split; [vm_compute; split; [discriminate|reflexivity]|].
    vm_compute. reflexivity. }
  assert (H7 : chain memP tZ
                 (newbucket tZ hP (hash_of tZ 4 (hash0 hP) mod 2 ^ hmap_B hP))
                 ([] ++ 1000 :: []))
    by (apply chain_single; [discriminate|vm_compute; reflexivity]).
  assert (H8 : Forall (fun b' => forall i', 0 <= i' < bucketCnt ->
             slot_match memP tZ 4 (tophash_of (hash_of tZ 4 (hash0 hP))) b' i'
               = Ok false) []) by constructor.
  assert (H9 : 0 <= 0 < bucketCnt) by (vm_compute; split; [discriminate|reflexivity]).
  assert (H10 : forall i', 0 <= i' < 0 ->
             slot_match memP tZ 4 (tophash_of (hash_of tZ 4 (hash0 hP))) 1000 i'
               = Ok false) by (intros i' Hi'; lia).
  assert (H11 : slot_match memP tZ 4 (tophash_of (hash_of tZ 4 (hash0 hP)))
                  1000 0 = Ok true) by (vm_compute; reflexivity).
  assert (H12 : deref_if memP (indirectkey tZ) (keyslot tZ 1000 0) = Ok 1008)
    by (vm_compute; reflexivity).
  assert (H13 : deref_if memP (indirectvalue tZ) (valueslot tZ 1000 0) = Ok 1072)
    by (vm_compute; reflexivity).
  assert (H14 : (length (@nil Z) < 1)%nat) by (simpl; lia).
  split; [repeat split; assumption || apply H9|].
  exact (mapaccessK_current_table memP tZ 500 hP 3008 4 [] 1000 [] 0 1008 1072
           H1 H2 H3 H4 H5 H6 H7 H8 H9 H10 H11 H12 H13 1%nat H14).
Defined.


Lemma mapiternext_keeps_snapshot_witness :
  mapiternext 20 memP (itP 3) = Ok itP3_next /\
  it_t itP3_next = it_t (itP 3) /\ it_h itP3_next = it_h (itP 3) /\
  buckets itP3_next = buckets (itP 3) /\ B itP3_next = B (itP 3) /\
  startBucket itP3_next = startBucket (itP 3) /\
  offset itP3_next = offset (itP 3) /\
  (wrapped (itP 3) = true -> wrapped itP3_next = true).
Proof.
  assert (H1 : mapiternext 20 memP (itP 3) = Ok itP3_next)
    by (vm_compute; reflexivity).
  split; [exact H1|].
  exact (mapiternext_keeps_snapshot 20 memP (itP 3) itP3_next H1).
Defined.

Lemma mapiternext_checkBucket_witness :
  (mapiternext 20 memP itP3_next = Ok itP3_next2 /\ key itP3_next2 <> 0 /\
   (bptr itP3_next <> 0 -> checkBucket itP3_next <> noCheck ->
    exists h, load_hmap memP (it_h itP3_next) = Ok h /\ oldbuckets h <> 0 /\
              B itP3_next = hmap_B h) /\
   checkBucket itP3_next2 <> noCheck) /\
  exists h, load_hmap memP (it_h itP3_next2) = Ok h /\ oldbuckets h <> 0 /\
            B itP3_next2 = hmap_B h.
Proof.
  assert (H1 : mapiternext 20 memP itP3_next = Ok itP3_next2)
    by (vm_compute; reflexivity).
  assert (H2 : key itP3_next2 <> 0) by discriminate.
  assert (H3 : bptr itP3_next <> 0 -> checkBucket itP3_next <> noCheck ->
    exists h, load_hmap memP (it_h itP3_next) = Ok h /\ oldbuckets h <> 0 /\
              B itP3_next = hmap_B h).
  { intros _ _. exists hP.
    split; [vm_compute; reflexivity|]. split; [discriminate|reflexivity]. }
  assert (H4 : checkBucket itP3_next2 <> noCheck) by discriminate.
  split; [repeat split; assumption|].
  exact (mapiternext_checkBucket 20 memP itP3_next itP3_next2 H1 H2 H3 H4).
Defined.

Lemma mapiternext_after_empty_init_witness :
  (600 = 0 \/ (exists h, load_hmap memE 600 = Ok h /\ count h = 0)) /\
  exists it', mapiterinit 5 memE tZ 600 itOld 6 0 = Ok it' /\
              it_t it' = None /\ mapiternext 5 memE it' = Fault.
Proof.
  assert (H1 : 600 = 0 \/
               (exists h, load_hmap memE 600 = Ok h /\ count h = 0)).
  { right. exists (Hmap 0 0 0 0 0 0 0).
    split; [vm_compute; reflexivity|reflexivity]. }
  split; [exact H1|].
  exact (mapiternext_after_empty_init 5 memE tZ 600 itOld 6 0 H1).
Defined.

Lemma traverse_bucket_order_witness :
  (500 <> 0 /\ load_hmap memP 500 = Ok hP /\ wf_table memP tZ hP layP /\
   count hP <> 0) /\
  exists fuel0, forall fuel, (fuel0 <= fuel)%nat ->
    exists ys,
      traverse fuel memP tZ 500 itZ 6 0
        = Ok (ys, seqZ (iter_rand hP 6 0 mod 2 ^ hmap_B hP)
                    (2 ^ hmap_B hP - iter_rand hP 6 0 mod 2 ^ hmap_B hP) ++
                  seqZ 0 (iter_rand hP 6 0 mod 2 ^ hmap_B hP)).
Proof.
  assert (H1 : 500 <> 0) by discriminate.
  assert (H2 : load_hmap memP 500 = Ok hP) by (vm_compute; reflexivity).
  assert (H3 : count hP <> 0) by discriminate.
  split; [split; [exact H1|split; [exact H2|split; [exact wf_memP|exact H3]]]|].
  exact (traverse_bucket_order memP tZ 500 hP layP itZ 6 0 H1 H2 wf_memP H3).
Defined.

Lemma traverse_order_at_rest_witness :
  (500 <> 0 /\ load_hmap memQ 500 = Ok hQ /\ wf_table memQ tZ hQ layQ /\
   count hQ <> 0 /\ oldbuckets hQ = 0) /\
  exists fuel0, forall fuel, (fuel0 <= fuel)%nat ->
    exists log,
      traverse fuel memQ tZ 500 itZ 11 0
        = Ok (entries_in_order memQ tZ hQ layQ
                (iter_rand hQ 11 0 mod 2 ^ hmap_B hQ)
                (Z.shiftr (iter_rand hQ 11 0) (hmap_B hQ) mod bucketCnt), log).
Proof.
  assert (H1 : 500 <> 0) by discriminate.
  assert (H2 : load_hmap memQ 500 = Ok hQ) by (vm_compute; reflexivity).
  assert (H3 : count hQ <> 0) by discriminate.
  assert (H4 : oldbuckets hQ = 0) by reflexivity.
  split; [split; [exact H1|split; [exact H2|split; [exact wf_memQ|split; [exact H3|exact H4]]]]|].
  exact (traverse_order_at_rest memQ tZ 500 hQ layQ itZ 11 0 H1 H2 wf_memQ H3 H4).
Defined.

Lemma randMapKey_empty_faults_witness :
  (600 = 0 \/ (exists h, load_hmap memE 600 = Ok h /\ count h = 0)) /\
  randMapKey 5 memE tZ 600 6 0 4 = Fault.
Proof.
  assert (H1 : 600 = 0 \/
               (exists h, load_hmap memE 600 = Ok h /\ count h = 0)).
  { right. exists (Hmap 0 0 0 0 0 0 0).
    split; [vm_compute; reflexivity|reflexivity]. }
  split; [exact H1|].
  exact (randMapKey_empty_faults 5 memE tZ 600 6 0 4 H1).
Defined.

Lemma randMapKey_live_witness :
  (500 <> 0 /\ load_hmap memP 500 = Ok hP /\ wf_table memP tZ hP layP /\
   count hP <> 0) /\
  exists fuel0 ys log, forall fuel, (fuel0 <= fuel)%nat ->
    traverse fuel memP tZ 500 new_hiter 6 0 = Ok (ys, log) /\
    length ys = Z.to_nat (count hP) /\
    forall d, exists k v,
      randMapKey fuel memP tZ 500 6 0 d = Ok k /\
      ys !! Z.to_nat (d mod count hP) = Some (k, v) /\
      k <> 0 /\ (k, v) ∈ live_entries memP tZ hP layP.
Proof.
  assert (H1 : 500 <> 0) by discriminate.
  assert (H2 : load_hmap memP 500 = Ok hP) by (vm_compute; reflexivity).
  assert (H3 : count hP <> 0) by discriminate.
  split; [split; [exact H1|split; [exact H2|split; [exact wf_memP|exact H3]]]|].
  exact (randMapKey_live memP tZ 500 hP layP 6 0 H1 H2 wf_memP H3).
Defined.

Lemma mapiterinit_ignores_iterator_witness :
  (mapiterinit 20 memP tZ 500 itZ 6 0 = Ok itP_first /\ key itP_first <> 0) /\
  mapiterinit 20 memP tZ 500 itOld 6 0 = Ok itP_first.
Proof.
  assert (H1 : mapiterinit 20 memP tZ 500 itZ 6 0 = Ok itP_first)
    by (vm_compute; reflexivity).
  assert (H2 : key itP_first <> 0) by discriminate.
  split; [split; assumption|].
  exact (mapiterinit_ignores_iterator 20 memP tZ 500 itZ itOld 6 0 itP_first H1 H2).
Defined.
